(** * Chain manager of templar ([src/tplr/chain.py]): record codec,
    self-commitment reconciliation, commitment refresh, block windows and
    peer classification.

    The Python class [ChainManager] is embedded shallowly.  A Python [str]
    is a sequence of Unicode code points and is modelled as [list N]; a
    [bytes] value is a [list N] of numbers below 256; a [dict] with integer
    or string keys is a [gmap]; exceptions are an explicit result type. *)

From Stdlib Require Import String Ascii QArith.
From stdpp Require Import gmap list fin_maps.

Close Scope Q_scope.
Close Scope string_scope.
Open Scope N_scope.

(** ** Python values *)

Module Py.

(** Exceptions that the embedded code raises or catches. *)
Inductive exn :=
| ValueError
| UnicodeDecodeError
| RuntimeError
| ZeroDivisionError
| OverflowError
| Exception.

Inductive result (A : Type) :=
| Ok (a : A)
| Raise (e : exn).
Arguments Ok {A} a.
Arguments Raise {A} e.

Definition is_ok {A} (r : result A) : bool :=
  match r with Ok _ => true | Raise _ => false end.

(** An ASCII literal as a [str]. *)
Fixpoint lit (s : string) : list N :=
  match s with
  | EmptyString => []
  | String a r => N_of_ascii a :: lit r
  end.

(** [s[lo:hi]] for non-negative bounds. *)
Definition slice (lo hi : nat) (s : list N) : list N := drop lo (take hi s).

(** [s.startswith(p)]. *)
Fixpoint startswith (s p : list N) : bool :=
  match p, s with
  | [], _ => true
  | c :: p', d :: s' => (c =? d) && startswith s' p'
  | _ :: _, [] => false
  end.

(** The characters [str.strip()] removes: those for which
    [str.isspace] holds. *)
Definition isspace (c : N) : bool :=
  ((0x09 <=? c) && (c <=? 0x0D)) || ((0x1C <=? c) && (c <=? 0x20))
  || (c =? 0x85) || (c =? 0xA0) || (c =? 0x1680)
  || ((0x2000 <=? c) && (c <=? 0x200A))
  || (c =? 0x2028) || (c =? 0x2029) || (c =? 0x202F) || (c =? 0x205F)
  || (c =? 0x3000).

Fixpoint lstrip (s : list N) : list N :=
  match s with
  | [] => []
  | c :: r => if isspace c then lstrip r else s
  end.

Definition rstrip (s : list N) : list N := reverse (lstrip (reverse s)).

Definition strip (s : list N) : list N := rstrip (lstrip s).

(** *** [bytes.fromhex] *)

Definition hex_digit (c : N) : option N :=
  if (0x30 <=? c) && (c <=? 0x39) then Some (c - 0x30)
  else if (0x61 <=? c) && (c <=? 0x66) then Some (c - 0x61 + 10)
  else if (0x41 <=? c) && (c <=? 0x46) then Some (c - 0x41 + 10)
  else None.

(** ASCII white space, skipped between two-digit groups. *)
Definition ascii_space (c : N) : bool :=
  (c =? 0x20) || ((0x09 <=? c) && (c <=? 0x0D)).

(** [None] stands for the [ValueError] of [bytes.fromhex]. *)
Fixpoint fromhex (s : list N) : option (list N) :=
  match s with
  | [] => Some []
  | c :: r =>
      if ascii_space c then fromhex r
      else
        match hex_digit c, r with
        | Some top, c' :: r' =>
            match hex_digit c' with
            | Some bot => cons (top * 16 + bot) <$> fromhex r'
            | None => None
            end
        | _, _ => None
        end
  end.

(** *** [bytes.decode("utf-8")], strict *)

Definition cont (b : N) : bool := (0x80 <=? b) && (b <=? 0xBF).

Definition second_of_3 (b0 b1 : N) : bool :=
  if b0 =? 0xE0 then (0xA0 <=? b1) && (b1 <=? 0xBF)
  else if b0 =? 0xED then (0x80 <=? b1) && (b1 <=? 0x9F)
  else cont b1.

Definition second_of_4 (b0 b1 : N) : bool :=
  if b0 =? 0xF0 then (0x90 <=? b1) && (b1 <=? 0xBF)
  else if b0 =? 0xF4 then (0x80 <=? b1) && (b1 <=? 0x8F)
  else cont b1.

(** [None] stands for [UnicodeDecodeError]. *)
Fixpoint decode_utf8 (bs : list N) : option (list N) :=
  match bs with
  | [] => Some []
  | b0 :: r0 =>
      if b0 <? 0x80 then cons b0 <$> decode_utf8 r0
      else if (0xC2 <=? b0) && (b0 <=? 0xDF) then
        match r0 with
        | b1 :: r1 =>
            if cont b1
            then cons ((b0 - 0xC0) * 64 + (b1 - 0x80)) <$> decode_utf8 r1
            else None
        | _ => None
        end
      else if (0xE0 <=? b0) && (b0 <=? 0xEF) then
        match r0 with
        | b1 :: b2 :: r2 =>
            if second_of_3 b0 b1 && cont b2
            then cons ((b0 - 0xE0) * 4096 + (b1 - 0x80) * 64 + (b2 - 0x80))
                   <$> decode_utf8 r2
            else None
        | _ => None
        end
      else if (0xF0 <=? b0) && (b0 <=? 0xF4) then
        match r0 with
        | b1 :: b2 :: b3 :: r3 =>
            if second_of_4 b0 b1 && cont b2 && cont b3
            then cons ((b0 - 0xF0) * 262144 + (b1 - 0x80) * 4096
                       + (b2 - 0x80) * 64 + (b3 - 0x80))
                   <$> decode_utf8 r3
            else None
        | _ => None
        end
      else None
  end.

(** [dict(zip(ks, vs))]: pairs are inserted from left to right, so a
    later pair overrides an earlier one with the same key. *)
Definition dict_zip `{Countable K} {V} (ks : list K) (vs : list V)
  : gmap K V :=
  foldl (fun m kv => <[kv.1 := kv.2]> m) ∅ (zip ks vs).

(** [l.index(x)]: the first position of [x]; [None] stands for the
    [ValueError] raised when [x] is absent. *)
Fixpoint index (l : list (list N)) (x : list N) : option nat :=
  match l with
  | [] => None
  | y :: r => if bool_decide (y = x) then Some 0%nat else S <$> index r x
  end.

End Py.

Import Py.

(** ** The bucket record *)

(** Modelled from the spec: the pydantic schema [Bucket] of
    [tplr/schemas.py] is not part of the sources at hand.  The spec gives
    a record of four text fields and says that no validation of the
    character content is performed, so construction never fails. *)
Record Bucket := mkBucket {
  name : list N;
  account_id : list N;
  access_key_id : list N;
  secret_access_key : list N
}.

#[global] Instance Bucket_eq_dec : EqDecision Bucket.
Proof. solve_decision. Defined.

(** ** Record codec *)

(** The string [commit] submits (lines 191-193). *)
Definition concatenated (bucket : Bucket) : list N :=
  (account_id bucket ++ access_key_id bucket) ++ secret_access_key bucket.

(** The parsing half of [get_commitment] (lines 278-291). *)
Definition parse_commitment (c : list N) : result Bucket :=
  if bool_decide (length c ≠ 128%nat) then Raise ValueError
  else Ok {| name := slice 0 32 c;
             account_id := slice 0 32 c;
             access_key_id := slice 32 64 c;
             secret_access_key := drop 64 c |}.

(** ** External collaborators *)

(** The membership view ([self.metagraph]): [hotkeys] and [uids] are
    parallel lists, and [stakes] is the stake vector [metagraph.S].
    Stakes are finite non-NaN numbers, modelled as rationals. *)
Record Metagraph := mkMetagraph {
  hotkeys : list (list N);
  uids : list nat;
  stakes : list Q
}.

(** The ledger's point store: the published [(hotkey, payload)] pairs,
    newest first.  A lookup returns the newest payload of a hotkey. *)
Fixpoint latest (ledger : list (list N * list N)) (hotkey : list N)
  : option (list N) :=
  match ledger with
  | [] => None
  | (k, payload) :: older =>
      if bool_decide (k = hotkey) then Some payload else latest older hotkey
  end.

(** The ledger together with the trace of the [subtensor.commit] calls
    issued so far, oldest first, whether or not the ledger accepts them. *)
Record Chain := mkChain {
  ledger : list (list N * list N);
  submitted : list (list N * list N)
}.

(** [subtensor.get_commitment(netuid, uid)]; [None] stands for any
    exception of the ledger client (unknown slot, nothing published). *)
Definition subtensor_get_commitment (mg : Metagraph) (chain : Chain)
    (uid : nat) : option (list N) :=
  hotkeys mg !! uid ≫= latest (ledger chain).

(** [subtensor.commit(wallet, netuid, data)]: the call is recorded and,
    the ledger being taken to accept it at once, the payload becomes the
    newest record of the wallet's hotkey. *)
Definition subtensor_commit (chain : Chain) (address data : list N) : Chain :=
  {| ledger := (address, data) :: ledger chain;
     submitted := submitted chain ++ [(address, data)] |}.

(** One [(key, value)] pair of [substrate.query_map]: [key.value] and the
    list [value.value.get("info", {}).get("fields", [])].  A field is
    either not a dict or a dict, of which only the values matter. *)
Inductive field :=
| NotADict
| FieldDict (values : list (list N)).

Record entry := mkEntry {
  key : list N;
  fields : list field
}.

(** ** The chain manager *)

Record ChainManager := mkChainManager {
  metagraph : Metagraph;
  blocks_per_window : Z;
  current_block : Z;
  current_window : Z;
  commitments : gmap nat Bucket;
  peers : list nat
}.

Definition set_current_block (self : ChainManager) (b : Z) : ChainManager :=
  {| metagraph := metagraph self; blocks_per_window := blocks_per_window self;
     current_block := b; current_window := current_window self;
     commitments := commitments self; peers := peers self |}.

Definition set_current_window (self : ChainManager) (w : Z) : ChainManager :=
  {| metagraph := metagraph self; blocks_per_window := blocks_per_window self;
     current_block := current_block self; current_window := w;
     commitments := commitments self; peers := peers self |}.

Definition set_commitments (self : ChainManager) (c : gmap nat Bucket)
  : ChainManager :=
  {| metagraph := metagraph self; blocks_per_window := blocks_per_window self;
     current_block := current_block self;
     current_window := current_window self;
     commitments := c; peers := peers self |}.

Definition set_peers (self : ChainManager) (p : list nat) : ChainManager :=
  {| metagraph := metagraph self; blocks_per_window := blocks_per_window self;
     current_block := current_block self;
     current_window := current_window self;
     commitments := commitments self; peers := p |}.

(** What a method that mutates [self] leaves behind: it returns, or it
    raises with the mutations made up to the raise. *)
Inductive outcome :=
| Returned (self : ChainManager)
| Raised (e : exn) (self : ChainManager).

Definition final (o : outcome) : ChainManager :=
  match o with Returned s => s | Raised _ s => s end.

(** *** Block tracking *)

Section TrueDivision.
Local Open Scope Z_scope.

(** [n / d] rounded to the nearest integer, ties to the even one. *)
Definition round_half_even (n d : Z) : Z :=
  let q := n / d in
  let r := n mod d in
  if 2 * r <? d then q
  else if d <? 2 * r then q + 1
  else if Z.even q then q else q + 1.

(** [2^k] for [k >= 0] and 1 otherwise: scaling by [pow2 e] and
    [pow2 (- e)] multiplies a fraction by [2^e] without leaving the
    integers. *)
Definition pow2 (k : Z) : Z := 2 ^ Z.max 0 k.

(** The integer [lg] with [2^lg <= a / b < 2^(lg + 1)], for positive [a]
    and [b]. *)
Definition ilog2_ratio (a b : Z) : Z :=
  let s := Z.log2 a - Z.log2 b in
  if b * pow2 s <=? a * pow2 (- s) then s else s - 1.

(** [a / b] is at least [2^k]; [a / b] is below [2^k]. *)
Definition ratio_ge (a b k : Z) : Prop := b * pow2 k ≤ a * pow2 (- k).

Definition ratio_lt (a b k : Z) : Prop := a * pow2 (- k) < b * pow2 k.

(** [int(a / b)] for positive integers.  The true division of two
    integers gives the float nearest to the exact quotient, ties to even:
    a significand [m] of 53 bits and an exponent [e] with value
    [m * 2^e].  [None] stands for the [OverflowError] raised when that
    value reaches [2^1024]; [int] then drops the fractional part.  (Below
    the normal range a float has fewer bits, but its integer part is 0
    either way.) *)
Definition truediv_trunc (a b : Z) : option Z :=
  let e := ilog2_ratio a b - 52 in
  let m := round_half_even (a * pow2 (- e)) (b * pow2 e) in
  let v := m * pow2 e in
  if 2 ^ 1024 <=? v then None else Some (v / pow2 (- e)).

(** [int(a / b)] on integers: a float true division, which raises for a
    zero divisor and for a quotient beyond the float range, followed by
    truncation towards zero. *)
Definition int_truediv (a b : Z) : result Z :=
  if bool_decide (b = 0) then Raise ZeroDivisionError
  else if bool_decide (a = 0) then Ok 0
  else match truediv_trunc (Z.abs a) (Z.abs b) with
       | None => Raise OverflowError
       | Some t => Ok (Z.sgn a * Z.sgn b * t)
       end.

End TrueDivision.

(** [handler] of [block_listener] (lines 164-172); [number] is
    [int(event["header"]["number"])]. *)
Definition handler (self : ChainManager) (number : Z) : outcome :=
  let self := set_current_block self number in
  match int_truediv (current_block self) (blocks_per_window self) with
  | Raise e => Raised e self
  | Ok w =>
      if bool_decide (w ≠ current_window self)
      then Returned (set_current_window self w)
      else Returned self
  end.

(** *** Self-commitment reconciliation *)

(** [commit] (lines 183-197). *)
Definition commit (chain : Chain) (address : list N) (bucket : Bucket)
  : Chain :=
  subtensor_commit chain address (concatenated bucket).

(** [get_commitment] (lines 231-291). *)
Definition get_commitment (self : ChainManager) (chain : Chain) (uid : nat)
  : result Bucket :=
  match subtensor_get_commitment (metagraph self) chain uid with
  | None => Raise Exception
  | Some c => parse_commitment c
  end.

(** The body of the [try] block of [try_commit] (lines 207-225);
    [address] is [wallet.hotkey.ss58_address]. *)
Definition commitment_matches (self : ChainManager) (chain : Chain)
    (address : list N) (bucket : Bucket) : result unit :=
  match index (hotkeys (metagraph self)) address with
  | None => Raise ValueError
  | Some uid =>
      match get_commitment self chain uid with
      | Raise e => Raise e
      | Ok commitment =>
          let commitment_str :=
            (name commitment ++ access_key_id commitment)
              ++ secret_access_key commitment in
          let current_str :=
            (name bucket ++ access_key_id bucket)
              ++ secret_access_key bucket in
          if bool_decide (current_str ≠ commitment_str)
          then Raise ValueError
          else Ok tt
      end
  end.

(** [try_commit] (lines 199-229): any exception of the [try] block leads
    to [commit]. *)
Definition try_commit (self : ChainManager) (chain : Chain)
    (address : list N) (bucket : Bucket) : Chain :=
  match commitment_matches self chain address bucket with
  | Ok _ => chain
  | Raise _ => commit chain address bucket
  end.

(** *** Commitment refresh *)

(** What the [try] block of [get_commitments] does with one payload
    (lines 331-353): a bucket, the logged length error followed by
    [continue], or an exception caught by [except Exception]. *)
Inductive decoded :=
| Decoded (bucket : Bucket)
| InvalidLength (n : nat)
| Failed (e : exn).

Definition strip_marker (field_value : list N) : list N :=
  if startswith field_value (lit "0x") then drop 2 field_value
  else field_value.

(** [bytes.fromhex(field_value).decode("utf-8")], [None] when either
    step raises. *)
Definition wire_text (field_value : list N) : option (list N) :=
  fromhex field_value ≫= decode_utf8.

Definition decode_field_value (field_value : list N) : decoded :=
  let field_value := strip_marker field_value in
  match fromhex field_value with
  | None => Failed ValueError
  | Some raw =>
      match decode_utf8 raw with
      | None => Failed UnicodeDecodeError
      | Some text =>
          let concatenated := strip text in
          if bool_decide (length concatenated ≠ 128%nat)
          then InvalidLength (length concatenated)
          else Decoded {| name := slice 0 32 concatenated;
                          account_id := slice 0 32 concatenated;
                          access_key_id := slice 32 64 concatenated;
                          secret_access_key := drop 64 concatenated |}
      end
  end.

(** What one iteration of the loop of [get_commitments] does with an
    entry (lines 319-353): [continue], the assignment
    [commitments[uid] = bucket], or an exception that leaves the loop.  A
    dict without values makes [next(iter(...))] raise [StopIteration]
    outside the [try] block, which leaves the coroutine as a
    [RuntimeError]. *)
Inductive action :=
| Skip
| Store (uid : nat) (bucket : Bucket)
| Abort (e : exn).

Definition loop_body (hotkey_to_uid : gmap (list N) nat) (e : entry)
  : action :=
  match hotkey_to_uid !! key e with
  | None => Skip
  | Some uid =>
      match fields e with
      | [] | NotADict :: _ => Skip
      | FieldDict [] :: _ => Abort RuntimeError
      | FieldDict (field_value :: _) :: _ =>
          match decode_field_value field_value with
          | Decoded bucket => Store uid bucket
          | InvalidLength _ | Failed _ => Skip
          end
      end
  end.

(** The loop of [get_commitments] (lines 318-353). *)
Fixpoint get_commitments_loop (hotkey_to_uid : gmap (list N) nat)
    (result : list entry) (commitments : gmap nat Bucket)
  : Py.result (gmap nat Bucket) :=
  match result with
  | [] => Ok commitments
  | e :: rest =>
      match loop_body hotkey_to_uid e with
      | Skip => get_commitments_loop hotkey_to_uid rest commitments
      | Store uid bucket =>
          get_commitments_loop hotkey_to_uid rest
            (<[uid := bucket]> commitments)
      | Abort x => Raise x
      end
  end.

(** The lookup table [hotkey_to_uid] of [get_commitments] (line 315). *)
Definition hotkey_to_uid (self : ChainManager) : gmap (list N) nat :=
  dict_zip (hotkeys (metagraph self)) (uids (metagraph self)).

(** [get_commitments] (lines 293-355); [query] is the result of
    [substrate.query_map], [None] when the ledger client raises. *)
Definition get_commitments (self : ChainManager) (query : option (list entry))
  : result (gmap nat Bucket) :=
  match query with
  | None => Raise Exception
  | Some result =>
      get_commitments_loop (hotkey_to_uid self) result ∅
  end.

(** *** Peer classification *)

Definition uid_to_stake (mg : Metagraph) : gmap nat Q :=
  dict_zip (uids mg) (stakes mg).

(** [uid_to_stake.get(int(uid), 0)]. *)
Definition stake_of (mg : Metagraph) (uid : nat) : Q :=
  default 0%Q (uid_to_stake mg !! uid).

(** [update_peers_with_buckets] (lines 412-422).  The keys are taken in
    the order of the map's enumeration. *)
Definition update_peers_with_buckets (self : ChainManager) : ChainManager :=
  set_peers self
    (List.filter (fun uid => Qle_bool (stake_of (metagraph self) uid) 10000%Q)
       (map fst (map_to_list (commitments self)))).

(** The part shared by [fetch_commitments] (lines 385-390) and the loop
    body of [_fetch_commitments_periodically] (lines 117-120): a dict is
    true when it is not empty. *)
Definition install (self : ChainManager) (new : gmap nat Bucket)
  : ChainManager :=
  if bool_decide (new ≠ ∅)
  then update_peers_with_buckets (set_commitments self new)
  else self.

(** [fetch_commitments] (lines 376-390): exceptions propagate. *)
Definition fetch_commitments (self : ChainManager)
    (query : option (list entry)) : outcome :=
  match get_commitments self query with
  | Raise e => Raised e self
  | Ok new => Returned (install self new)
  end.

(** One iteration of [_fetch_commitments_periodically] (lines 115-122):
    exceptions are logged and swallowed. *)
Definition fetch_commitments_periodically_step (self : ChainManager)
    (query : option (list entry)) : ChainManager :=
  match get_commitments self query with
  | Raise _ => self
  | Ok new => install self new
  end.

(** ** Helpers for concrete payloads *)

(** [bytes.hex()] in lower case, used to write wire payloads down. *)
Definition hex_char (d : N) : N := if d <? 10 then 0x30 + d else 0x61 + (d - 10).

Definition hexlify (bs : list N) : list N :=
  flat_map (fun b => [hex_char (b / 16); hex_char (b mod 16)]) bs.

(** A wire payload for an ASCII text: the marker followed by the hex
    digits of its bytes. *)
Definition wire (text : list N) : list N := lit "0x" ++ hexlify text.

(** ** Statements about the record codec *)

(** The widths the data model gives the serialized fields. *)
Definition valid_widths (b : Bucket) : Prop :=
  length (account_id b) = 32%nat ∧ length (access_key_id b) = 32%nat
  ∧ (length (secret_access_key b) ≤ 64)%nat.

(** The widths under which the serialization has 128 characters. *)
Definition canonical_widths (b : Bucket) : Prop :=
  length (account_id b) = 32%nat ∧ length (access_key_id b) = 32%nat
  ∧ length (secret_access_key b) = 64%nat.

(** Decoding the encoding of [b] gives back its three serialized fields,
    with the account id as name. *)
Definition roundtrips (b : Bucket) : Prop :=
  ∃ b', parse_commitment (concatenated b) = Ok b'
        ∧ account_id b' = account_id b
        ∧ access_key_id b' = access_key_id b
        ∧ secret_access_key b' = secret_access_key b
        ∧ name b' = account_id b'.

(** ** Concrete records *)

Definition short_secret_bucket : Bucket :=
  {| name := replicate 32 0x61; account_id := replicate 32 0x61;
     access_key_id := replicate 32 0x62; secret_access_key := lit "S1" |}.

Definition canonical_bucket : Bucket :=
  {| name := replicate 32 0x61; account_id := replicate 32 0x61;
     access_key_id := replicate 32 0x62;
     secret_access_key := replicate 64 0x63 |}.

Definition wide_account_bucket : Bucket :=
  {| name := replicate 33 0x61; account_id := replicate 33 0x61;
     access_key_id := replicate 32 0x62;
     secret_access_key := replicate 64 0x63 |}.

(** ** Concrete managers *)

Definition no_members : Metagraph :=
  {| hotkeys := []; uids := []; stakes := [] |}.

(** A manager with windows of 100 blocks at the given block and window. *)
Definition manager_at (block window : Z) : ChainManager :=
  {| metagraph := no_members; blocks_per_window := 100;
     current_block := block; current_window := window;
     commitments := ∅; peers := [] |}.

(** A manager with windows of one block. *)
Definition unit_window_manager : ChainManager :=
  {| metagraph := no_members; blocks_per_window := 1;
     current_block := 0; current_window := 0;
     commitments := ∅; peers := [] |}.

(** Three members with the stakes 500, 20000 and 9999. *)
Definition three_members : Metagraph :=
  {| hotkeys := [lit "hk1"; lit "hk2"; lit "hk3"];
     uids := [1; 2; 3]%nat;
     stakes := [500%Q; 20000%Q; 9999%Q] |}.

Definition manager_of (mg : Metagraph) (index : gmap nat Bucket)
  : ChainManager :=
  {| metagraph := mg; blocks_per_window := 100;
     current_block := 0; current_window := 0;
     commitments := index; peers := [] |}.

(** A manager that has indexed the first member. *)
Definition indexed_manager : ChainManager :=
  update_peers_with_buckets
    (manager_of three_members {[1%nat := canonical_bucket]}).

(** ** Statements about the commitment refresh *)

(** The payload does not decode to a bucket. *)
Definition decode_fails (field_value : list N) : Prop :=
  ∀ bucket, decode_field_value field_value ≠ Decoded bucket.

(** No field of the entry is a dict without values. *)
Definition has_no_empty_dict (e : entry) : Prop :=
  ∀ fs, fields e ≠ FieldDict [] :: fs.

(** ** Concrete batches *)

(** An entry of the first member whose payload has 100 characters. *)
Definition malformed_entry : entry :=
  {| key := lit "hk1";
     fields := [FieldDict [wire (replicate 100 0x61)]] |}.

(** A well-formed entry of the third member. *)
Definition sibling_entry : entry :=
  {| key := lit "hk3";
     fields := [FieldDict [wire (concatenated canonical_bucket)]] |}.

(** ** Statements about the reconciliation *)

(** The record [try_commit] observes for the wallet's hotkey. *)
Definition observed_record (self : ChainManager) (chain : Chain)
    (address : list N) (obs : Bucket) : Prop :=
  ∃ uid, index (hotkeys (metagraph self)) address = Some uid
         ∧ get_commitment self chain uid = Ok obs.

(** Field-wise equality of the tuples (name, access key id, secret). *)
Definition same_tuple (a b : Bucket) : Prop :=
  name a = name b ∧ access_key_id a = access_key_id b
  ∧ secret_access_key a = secret_access_key b.

(** Equality of the strings [try_commit] compares. *)
Definition same_concatenation (a b : Bucket) : Prop :=
  (name a ++ access_key_id a) ++ secret_access_key a
  = (name b ++ access_key_id b) ++ secret_access_key b.

(** The widths the data model gives the compared fields. *)
Definition compared_widths (b : Bucket) : Prop :=
  (length (name b) ≤ 32)%nat ∧ length (access_key_id b) = 32%nat
  ∧ (length (secret_access_key b) ≤ 64)%nat.

(** Two reconciliations in succession. *)
Definition try_commit_twice (self : ChainManager) (chain : Chain)
    (address : list N) (bucket : Bucket) : Chain :=
  try_commit self (try_commit self chain address bucket) address bucket.

(** ** Concrete ledgers and payloads *)

(** A record of 31 + 33 + 64 characters that concatenates to the same
    string as [canonical_bucket]. *)
Definition shifted_bucket : Bucket :=
  {| name := replicate 31 0x61; account_id := replicate 31 0x61;
     access_key_id := 0x61 :: replicate 32 0x62;
     secret_access_key := replicate 64 0x63 |}.

Definition empty_chain : Chain := {| ledger := []; submitted := [] |}.

(** A ledger on which the first member has published
    [canonical_bucket]. *)
Definition published_chain : Chain :=
  {| ledger := [(lit "hk1", concatenated canonical_bucket)];
     submitted := [] |}.

(** A text of 128 characters that ends with a space. *)
Definition trailing_space_text : list N := replicate 127 0x61 ++ [0x20].

(** A ledger on which the first member has published that text. *)
Definition trailing_space_chain : Chain :=
  {| ledger := [(lit "hk1", trailing_space_text)]; submitted := [] |}.

(** A text of 129 characters that starts with a space. *)
Definition leading_space_text : list N :=
  0x20 :: concatenated canonical_bucket.

(** * The remaining methods of the chain manager *)

(** ** Bucket lookup *)

(** [get_bucket] (lines 125-134). *)
Definition get_bucket (self : ChainManager) (uid : nat) : option Bucket :=
  commitments self !! uid.

(** [get_all_buckets] (lines 136-142): the dict comprehension visits the
    UIDs of the metagraph from left to right. *)
Definition get_all_buckets (self : ChainManager) : gmap nat (option Bucket) :=
  foldl (fun d uid => <[uid := get_bucket self uid]> d) ∅
    (uids (metagraph self)).

(** ** Hotkey lookup *)

(** What [get_hotkey] does: it returns a hotkey, returns [None], or the
    subscript [hotkeys_list[index]] raises [IndexError]. *)
Inductive hotkey_lookup :=
| Hotkey (hotkey : list N)
| NoHotkey
| IndexError.

(** [uids_list.index(uid)] after the test [uid in uids_list]: the first
    position of [uid], [None] when the test fails. *)
Fixpoint uid_index (l : list nat) (uid : nat) : option nat :=
  match l with
  | [] => None
  | y :: r => if bool_decide (y = uid) then Some 0%nat
              else S <$> uid_index r uid
  end.

(** [get_hotkey] (lines 392-410). *)
Definition get_hotkey (self : ChainManager) (uid : nat) : hotkey_lookup :=
  match uid_index (uids (metagraph self)) uid with
  | Some index =>
      match hotkeys (metagraph self) !! index with
      | Some hotkey => Hotkey hotkey
      | None => IndexError
      end
  | None => NoHotkey
  end.

(** What [get_bucket_for_neuron] does: it returns [None], or the [await]
    applied to the result of the plain method [get_bucket] (a bucket or
    [None], neither awaitable) raises [TypeError], which the handler for
    [ValueError] does not catch. *)
Inductive neuron_bucket :=
| NoBucket
| TypeError.

(** [get_bucket_for_neuron] (lines 357-374); [address] is
    [wallet.hotkey.ss58_address]. *)
Definition get_bucket_for_neuron (self : ChainManager) (address : list N)
  : neuron_bucket :=
  match index (hotkeys (metagraph self)) address with
  | Some uid => let awaited := get_bucket self uid in TypeError
  | None => NoBucket
  end.

(** ** Windows *)

(** [block_to_window] (lines 144-146) for [hparams.window_length]. *)
Definition block_to_window (window_length block : Z) : result Z :=
  int_truediv block window_length.

(** The block whose hash [window_to_seed] asks for (line 150). *)
Definition seed_block (window_length window : Z) : Z :=
  (window * window_length)%Z.

(** ** Construction and the background activities *)

(** [__init__] (lines 39-100) up to the start of the background task:
    the fields are initialised, the bucket is committed when both a wallet
    and a bucket are given, and the commitments are fetched once.
    [query] is what the ledger returns to that fetch. *)
Definition new_manager (mg : Metagraph) (blocks : Z) : ChainManager :=
  {| metagraph := mg; blocks_per_window := blocks;
     current_block := 0; current_window := 0;
     commitments := ∅; peers := [] |}.


(** The first iterations of [_fetch_commitments_periodically]
    (lines 112-123), one per result of the ledger. *)
Definition fetch_commitments_periodically (self : ChainManager)
    (queries : list (option (list entry))) : ChainManager :=
  foldl fetch_commitments_periodically_step self queries.

(** What happens to a running manager: a block header reaches [handler]
    or the background task makes one more iteration. *)
Inductive event :=
| NewBlock (number : Z)
| Refresh (query : option (list entry)).

Definition react (self : ChainManager) (ev : event) : ChainManager :=
  match ev with
  | NewBlock number => final (handler self number)
  | Refresh query => fetch_commitments_periodically_step self query
  end.

Definition run (self : ChainManager) (evs : list event) : ChainManager :=
  foldl react self evs.

(** Repeated reconciliation. *)
Fixpoint try_commit_times (n : nat) (self : ChainManager) (chain : Chain)
    (address : list N) (bucket : Bucket) : Chain :=
  match n with
  | O => chain
  | S n => try_commit_times n self (try_commit self chain address bucket)
             address bucket
  end.

(** ** Statements about the remaining methods *)

(** The peers are the ones [update_peers_with_buckets] computes from the
    current index. *)
Definition peers_consistent (self : ChainManager) : Prop :=
  peers self = peers (update_peers_with_buckets self).

(** The shape of every bucket the refresh decodes. *)
Definition decoded_shape (b : Bucket) : Prop :=
  length (account_id b) = 32%nat ∧ length (access_key_id b) = 32%nat
  ∧ length (secret_access_key b) = 64%nat ∧ name b = account_id b.

(** A character that [bytes.fromhex] reads as a digit. *)
Definition is_hex (c : N) : Prop := is_Some (hex_digit c).

(** A text that [strip()] leaves alone. *)
Definition no_outer_space (text : list N) : Prop :=
  (∀ c, head text = Some c → isspace c = false)
  ∧ (∀ c, last text = Some c → isspace c = false).

(** The result of the query changes nothing: [get_commitments] raises or
    returns an empty dict. *)
Definition ineffective (self : ChainManager) (query : option (list entry))
  : Prop :=
  ∀ new, get_commitments self query = Ok new → new = ∅.

(** ** Concrete entries for the remaining methods *)

(** [canonical_bucket] with another secret. *)
Definition rotated_bucket : Bucket :=
  {| name := replicate 32 0x61; account_id := replicate 32 0x61;
     access_key_id := replicate 32 0x62;
     secret_access_key := replicate 64 0x64 |}.

(** A second well-formed entry of the third member. *)
Definition rotated_entry : entry :=
  {| key := lit "hk3";
     fields := [FieldDict [wire (concatenated rotated_bucket)]] |}.

(** An entry of the second member whose first field is a dict without
    values. *)
Definition valueless_entry : entry :=
  {| key := lit "hk2"; fields := [FieldDict []] |}.

(** A well-formed entry under a hotkey that is no member. *)
Definition stranger_entry : entry :=
  {| key := lit "nobody";
     fields := [FieldDict [wire (concatenated canonical_bucket)]] |}.

(** * Proofs *)

(** ** Record codec *)

Section Slices.
Context (a k s : list N).
Hypothesis Ha : length a = 32%nat.
Hypothesis Hk : length k = 32%nat.

Lemma slice_account : slice 0 32 ((a ++ k) ++ s) = a.
Proof.
  unfold slice. rewrite drop_0, <- (assoc_L (++)).
  by apply take_app_length'.
Qed.

Lemma slice_access_key : slice 32 64 ((a ++ k) ++ s) = k.
Proof.
  unfold slice. rewrite take_app_length'.
  - by apply drop_app_length'.
  - rewrite length_app. lia.
Qed.

Lemma drop_secret : drop 64 ((a ++ k) ++ s) = s.
Proof. apply drop_app_length'. rewrite length_app. lia. Qed.
End Slices.

Lemma length_concatenated b :
  length (concatenated b)
  = (length (account_id b) + length (access_key_id b)
     + length (secret_access_key b))%nat.
Proof. unfold concatenated. by rewrite !length_app. Qed.

Lemma parse_commitment_ok_iff c :
  is_ok (parse_commitment c) = true ↔ length c = 128%nat.
Proof.
  unfold parse_commitment. by case_bool_decide; simpl; split.
Qed.

Lemma parse_commitment_lengths c obs :
  parse_commitment c = Ok obs →
  length (name obs) = 32%nat ∧ length (access_key_id obs) = 32%nat
  ∧ length (secret_access_key obs) = 64%nat.
Proof.
  unfold parse_commitment. case_bool_decide as Hc; [done|].
  assert (length c = 128%nat) by (by destruct (decide (length c = 128%nat))).
  intros [= <-]. simpl. unfold slice.
  rewrite !length_drop, !length_take. lia.
Qed.

(** A record whose account id and access key id have 32 characters and
    whose secret access key has exactly 64 is reproduced by decoding its
    encoding, and the decoded name is the account id. *)
Theorem roundtrip_canonical (b : Bucket) :
  canonical_widths b → roundtrips b.
Proof.
  intros (Ha & Hk & Hs). unfold roundtrips, parse_commitment.
  rewrite bool_decide_eq_false_2.
  - eexists. split; [reflexivity|]. simpl. unfold concatenated.
    rewrite slice_account, slice_access_key, drop_secret by done. done.
  - rewrite length_concatenated. lia.
Qed.

Lemma roundtrip_canonical_witness :
  canonical_widths canonical_bucket ∧ roundtrips canonical_bucket.
Proof.
  assert (H : canonical_widths canonical_bucket) by (repeat split).
  split; [exact H | exact (roundtrip_canonical canonical_bucket H)].
Defined.

(** C1, where the code breaks the round trip: a secret access key of two
    characters has a valid width (the docstring of [get_commitment] gives
    the secret a variable length of up to 64 characters), but [commit]
    does not pad, the encoding has 66 characters and decoding raises
    [ValueError]. *)
Theorem roundtrip_short_secret_raises :
  valid_widths short_secret_bucket
  ∧ parse_commitment (concatenated short_secret_bucket) = Raise ValueError
  ∧ ¬ roundtrips short_secret_bucket.
Proof.
  split; [|split].
  - repeat split. simpl. lia.
  - reflexivity.
  - intros (b' & Hb & _). discriminate Hb.
Qed.

(** Only a record of canonical widths is reproduced. *)
Lemma roundtrips_only_canonical (b : Bucket) :
  roundtrips b → canonical_widths b.
Proof.
  intros (b' & Hb & Ha & Hk & Hs & Hname). unfold canonical_widths.
  destruct (parse_commitment_lengths _ _ Hb) as (Hn' & Hk' & Hs').
  by rewrite <- Ha, <- Hk, <- Hs, <- Hname.
Qed.

(** C9, the claim as amended: encoding checks no width.  For every
    record, whatever the widths of its fields, [commit] hands the plain
    concatenation of the three fields to the ledger client, and its length
    is the sum of their lengths. *)
Theorem commit_submits_concatenation (chain : Chain) (address : list N)
    (b : Bucket) :
  submitted (commit chain address b)
  = submitted chain
      ++ [(address,
           (account_id b ++ access_key_id b) ++ secret_access_key b)]
  ∧ length (concatenated b)
    = (length (account_id b) + length (access_key_id b)
       + length (secret_access_key b))%nat.
Proof.
  split; [reflexivity|]. apply length_concatenated.
Qed.

(** C9 as stated fails: an account id of 33 characters is submitted as it
    is, in a serialization of 129 characters. *)
Lemma commit_wide_account_counterexample :
  (32 < length (account_id wide_account_bucket))%nat
  ∧ submitted (commit (mkChain [] []) (lit "hk") wide_account_bucket)
    = [(lit "hk", concatenated wide_account_bucket)]
  ∧ length (concatenated wide_account_bucket) = 129%nat.
Proof. split; [simpl; lia|]. split; reflexivity. Qed.

(** ** Block tracking *)

Section TrueDivisionFacts.
Local Open Scope Z_scope.

Lemma pow2_pos k : 0 < pow2 k.
Proof. unfold pow2. apply Z.pow_pos_nonneg; lia. Qed.

Lemma pow2_nonneg k : 0 ≤ k → pow2 k = 2 ^ k.
Proof. intros. unfold pow2. f_equal. lia. Qed.

Lemma pow2_nonpos k : k ≤ 0 → pow2 k = 1.
Proof. intros. unfold pow2. by replace (Z.max 0 k) with 0 by lia. Qed.

(** [2^k / 2^j = 2^(k - j)], without fractions. *)
Lemma pow2_ratio j k d :
  0 ≤ d → k = j + d → pow2 k * pow2 (- j) = 2 ^ d * pow2 j * pow2 (- k).
Proof.
  intros Hd ->. unfold pow2. rewrite <- !Z.pow_add_r by lia. f_equal. lia.
Qed.

Lemma pow_ge_1 d : 0 ≤ d → 1 ≤ 2 ^ d.
Proof. intros. pose proof (Z.pow_pos_nonneg 2 d). lia. Qed.

Lemma ratio_ge_le_exp a b j k :
  0 < a → 0 < b → j ≤ k → ratio_ge a b k → ratio_ge a b j.
Proof.
  unfold ratio_ge. intros Ha Hb Hjk H.
  pose proof (pow2_ratio j k (k - j) ltac:(lia) ltac:(lia)) as Hr.
  pose proof (pow_ge_1 (k - j) ltac:(lia)).
  pose proof (pow2_pos j). pose proof (pow2_pos k).
  pose proof (pow2_pos (- j)). pose proof (pow2_pos (- k)).
  apply (Z.mul_le_mono_pos_r _ _ (pow2 (- k))); [done|].
  transitivity (b * (2 ^ (k - j) * pow2 j * pow2 (- k))); [nia|].
  rewrite <- Hr. nia.
Qed.

Lemma ratio_lt_le_exp a b j k :
  0 < a → 0 < b → j ≤ k → ratio_lt a b j → ratio_lt a b k.
Proof.
  unfold ratio_lt. intros Ha Hb Hjk H.
  pose proof (pow2_ratio j k (k - j) ltac:(lia) ltac:(lia)) as Hr.
  pose proof (pow_ge_1 (k - j) ltac:(lia)).
  pose proof (pow2_pos j). pose proof (pow2_pos k).
  pose proof (pow2_pos (- j)). pose proof (pow2_pos (- k)).
  apply (Z.mul_lt_mono_pos_r (pow2 (- j))); [done|].
  apply Z.le_lt_trans with (a * pow2 (- j) * pow2 (- k)); [nia|].
  apply Z.lt_le_trans with (b * pow2 j * pow2 (- k)); [nia|].
  replace (b * pow2 k * pow2 (- j)) with (b * (pow2 k * pow2 (- j))) by lia.
  rewrite Hr. nia.
Qed.

Lemma ratio_lt_ge a b k : ratio_lt a b k ↔ ¬ ratio_ge a b k.
Proof. unfold ratio_lt, ratio_ge. lia. Qed.

Lemma mul_chain_lt a b l u x :
  0 < a → 0 < b → 0 < x → l ≤ b → a < u → a * x * l < b * (u * x).
Proof.
  intros. assert (a * l ≤ a * b) by nia. assert (a * b < u * b) by nia.
  assert (a * l < u * b) by lia. nia.
Qed.

Lemma mul_chain_le a b l u x :
  0 < a → 0 < b → 0 < x → l ≤ a → b ≤ u → b * (l * x) ≤ a * x * u.
Proof.
  intros. assert (b * l ≤ b * a) by nia. assert (b * a ≤ u * a) by nia.
  assert (b * l ≤ u * a) by lia. nia.
Qed.

Lemma ilog2_ratio_spec a b :
  0 < a → 0 < b →
  ratio_ge a b (ilog2_ratio a b) ∧ ratio_lt a b (ilog2_ratio a b + 1).
Proof.
  intros Ha Hb.
  destruct (Z.log2_spec a Ha) as [Ha1 Ha2].
  destruct (Z.log2_spec b Hb) as [Hb1 Hb2].
  pose proof (Z.log2_nonneg a) as Hla. pose proof (Z.log2_nonneg b) as Hlb.
  set (la := Z.log2 a) in *. set (lb := Z.log2 b) in *.
  rewrite <- Z.add_1_r in Ha2, Hb2.
  assert (HA : ratio_lt a b (la - lb + 1)).
  { unfold ratio_lt.
    assert (Hid : pow2 (la - lb + 1) * 2 ^ lb
                  = 2 ^ (la + 1) * pow2 (- (la - lb + 1))).
    { unfold pow2. rewrite <- !Z.pow_add_r by lia. f_equal. lia. }
    pose proof (pow2_pos (la - lb + 1)).
    pose proof (pow2_pos (- (la - lb + 1))).
    pose proof (Z.pow_pos_nonneg 2 lb ltac:(lia) ltac:(lia)).
    apply (Z.mul_lt_mono_pos_r (2 ^ lb)); [done|].
    replace (b * pow2 (la - lb + 1) * 2 ^ lb)
      with (b * (pow2 (la - lb + 1) * 2 ^ lb)) by lia.
    rewrite Hid. by apply mul_chain_lt. }
  assert (HB : ratio_ge a b (la - lb - 1)).
  { unfold ratio_ge.
    assert (Hid : pow2 (la - lb - 1) * 2 ^ (lb + 1)
                  = 2 ^ la * pow2 (- (la - lb - 1))).
    { unfold pow2. rewrite <- !Z.pow_add_r by lia. f_equal. lia. }
    pose proof (pow2_pos (la - lb - 1)).
    pose proof (pow2_pos (- (la - lb - 1))).
    pose proof (Z.pow_pos_nonneg 2 (lb + 1) ltac:(lia) ltac:(lia)).
    apply (Z.mul_le_mono_pos_r _ _ (2 ^ (lb + 1))); [done|].
    replace (b * pow2 (la - lb - 1) * 2 ^ (lb + 1))
      with (b * (pow2 (la - lb - 1) * 2 ^ (lb + 1))) by lia.
    rewrite Hid. apply mul_chain_le; [done..|lia]. }
  unfold ilog2_ratio. fold la lb.
  destruct (Z.leb_spec (b * pow2 (la - lb)) (a * pow2 (- (la - lb))))
    as [Hle|Hlt].
  - split; [done|done].
  - split; [done|]. by replace (la - lb - 1 + 1) with (la - lb) by lia.
Qed.

Lemma round_half_even_spec n d :
  0 < d →
  2 * n - d ≤ 2 * round_half_even n d * d ≤ 2 * n + d.
Proof.
  intros Hd. unfold round_half_even.
  pose proof (Z.div_mod n d ltac:(lia)) as Hn.
  pose proof (Z.mod_pos_bound n d Hd) as Hr.
  destruct (Z.ltb_spec (2 * (n mod d)) d);
    [|destruct (Z.ltb_spec d (2 * (n mod d))); [|destruct (Z.even (n / d))]];
    nia.
Qed.

Lemma round_half_even_ge n d c :
  0 < d → c * d ≤ n → c ≤ round_half_even n d.
Proof.
  intros Hd Hc. pose proof (round_half_even_spec n d Hd).
  destruct (Z.le_gt_cases c (round_half_even n d)) as [|Hlt]; [done|].
  assert (round_half_even n d * d ≤ (c - 1) * d) by nia. lia.
Qed.

Lemma round_half_even_le n d c :
  0 < d → n ≤ c * d → round_half_even n d ≤ c.
Proof.
  intros Hd Hc. pose proof (round_half_even_spec n d Hd).
  destruct (Z.le_gt_cases (round_half_even n d) c) as [|Hlt]; [done|].
  assert ((c + 1) * d ≤ round_half_even n d * d) by nia. lia.
Qed.

Lemma round_half_even_mono n1 n2 d :
  0 < d → n1 ≤ n2 → round_half_even n1 d ≤ round_half_even n2 d.
Proof.
  intros Hd Hn. destruct (Z.eq_dec n1 n2) as [->|Hne]; [done|].
  pose proof (round_half_even_spec n1 d Hd).
  pose proof (round_half_even_spec n2 d Hd).
  destruct (Z.le_gt_cases (round_half_even n1 d) (round_half_even n2 d))
    as [|Hlt]; [done|].
  assert ((round_half_even n2 d + 1) * d ≤ round_half_even n1 d * d) by nia.
  lia.
Qed.

(** The scaled quotient lies between [2^52] and [2^53]. *)
Lemma scaled_bounds a b :
  0 < a → 0 < b →
  let e := ilog2_ratio a b - 52 in
  2 ^ 52 * (b * pow2 e) ≤ a * pow2 (- e)
  ∧ a * pow2 (- e) < 2 ^ 53 * (b * pow2 e).
Proof.
  intros Ha Hb e. destruct (ilog2_ratio_spec a b Ha Hb) as [Hge Hlt].
  set (lg := ilog2_ratio a b) in *. unfold ratio_ge, ratio_lt in *.
  pose proof (pow2_ratio e lg 52 ltac:(lia) ltac:(lia)) as H1.
  pose proof (pow2_ratio e (lg + 1) 53 ltac:(lia) ltac:(lia)) as H2.
  pose proof (pow2_pos e). pose proof (pow2_pos (- e)).
  pose proof (pow2_pos lg). pose proof (pow2_pos (- lg)).
  pose proof (pow2_pos (lg + 1)). pose proof (pow2_pos (- (lg + 1))).
  split.
  - apply (Z.mul_le_mono_pos_r _ _ (pow2 (- lg))); [done|].
    replace (2 ^ 52 * (b * pow2 e) * pow2 (- lg))
      with (b * (2 ^ 52 * pow2 e * pow2 (- lg))) by lia.
    rewrite <- H1. nia.
  - apply (Z.mul_lt_mono_pos_r (pow2 (- (lg + 1)))); [done|].
    replace (2 ^ 53 * (b * pow2 e) * pow2 (- (lg + 1)))
      with (b * (2 ^ 53 * pow2 e * pow2 (- (lg + 1)))) by lia.
    rewrite <- H2. nia.
Qed.

Lemma mantissa_bounds a b :
  0 < a → 0 < b →
  let e := ilog2_ratio a b - 52 in
  2 ^ 52 ≤ round_half_even (a * pow2 (- e)) (b * pow2 e) ≤ 2 ^ 53.
Proof.
  intros Ha Hb e. destruct (scaled_bounds a b Ha Hb) as [H1 H2].
  fold e in H1, H2.
  pose proof (pow2_pos e).
  split.
  - apply round_half_even_ge; [nia|done].
  - apply round_half_even_le; [nia|lia].
Qed.

(** The same bounds for any [m] within half a unit of [n / d]. *)
Lemma round_half_even_ge_spec n d c m :
  0 < d → 2 * n - d ≤ 2 * m * d → c * d ≤ n → c ≤ m.
Proof.
  intros Hd Hs Hc. destruct (Z.le_gt_cases c m) as [|Hlt]; [done|].
  assert (m * d ≤ (c - 1) * d) by nia. lia.
Qed.

Lemma pow_53_1024 : 2 ^ 53 < 2 ^ 1024.
Proof. apply Z.pow_lt_mono_r; lia. Qed.

(** Below [2^53] the truncated float quotient is the integer quotient. *)
Lemma truediv_trunc_exact a b :
  0 < a < 2 ^ 53 → 0 < b → truediv_trunc a b = Some (a / b).
Proof.
  intros [Ha Ha53] Hb. unfold truediv_trunc.
  destruct (scaled_bounds a b Ha Hb) as [H1 H2].
  pose proof (mantissa_bounds a b Ha Hb) as Hm. cbv zeta in Hm.
  remember (ilog2_ratio a b - 52) as e eqn:Ee. clear Ee.
  pose proof (pow2_pos e) as Hpe. pose proof (pow2_pos (- e)) as Hpn.
  assert (Hspec : 2 * (a * pow2 (- e)) - b * pow2 e
                  ≤ 2 * round_half_even (a * pow2 (- e)) (b * pow2 e)
                    * (b * pow2 e)
                  ≤ 2 * (a * pow2 (- e)) + b * pow2 e)
    by (apply round_half_even_spec; nia).
  remember (round_half_even (a * pow2 (- e)) (b * pow2 e)) as m eqn:Em.
  clear Em.
  pose proof pow_53_1024 as Hbig.
  assert (H52 : 0 < 2 ^ 52) by (apply Z.pow_pos_nonneg; lia).
  assert (H5253 : 2 ^ 53 = 2 * 2 ^ 52) by (by rewrite <- Z.pow_succ_r).
  remember (2 ^ 52) as P eqn:EP. remember (2 ^ 53) as Q eqn:EQ.
  remember (2 ^ 1024) as B eqn:EB. clear EP EQ EB.
  destruct (Z.le_gt_cases 0 e) as [He|He].
  - rewrite (pow2_nonpos (- e)) in * by lia.
    remember (pow2 e) as E eqn:EE. clear EE. rewrite !Z.mul_1_r in *.
    assert (HbE : b * E < 2).
    { apply (Z.mul_lt_mono_pos_l P); [done|]. lia. }
    assert (b = 1 ∧ E = 1) as [-> HE] by nia.
    rewrite HE in *. assert (m = a) as -> by lia.
    rewrite Z.mul_1_r, !Z.div_1_r.
    destruct (Z.leb_spec B a); [lia|done].
  - rewrite (pow2_nonpos e) in * by lia. rewrite !Z.mul_1_r in *.
    remember (pow2 (- e)) as K eqn:EK. clear EK.
    assert (HaK : a * K < Q * K) by (apply Z.mul_lt_mono_pos_r; lia).
    assert (HbK : b < 2 * K).
    { apply (Z.mul_lt_mono_pos_l P); [done|].
      replace (P * (2 * K)) with (2 * P * K) by ring. lia. }
    destruct (Z.leb_spec B m); [lia|]. f_equal.
    pose proof (Z.div_mod a b ltac:(lia)) as Hab.
    pose proof (Z.mod_pos_bound a b Hb) as Hr.
    remember (a / b) as n eqn:En. remember (a mod b) as r eqn:Er.
    clear En Er.
    assert (HaK' : a * K = n * K * b + r * K).
    { replace (n * K * b + r * K) with ((b * n + r) * K) by ring.
      by f_equal. }
    assert (0 ≤ r * K) by (apply Z.mul_nonneg_nonneg; lia).
    assert (Hlo : n * K ≤ m).
    { apply (round_half_even_ge_spec (a * K) b); lia. }
    assert (Hhi : m < (n + 1) * K).
    { destruct (Z.lt_ge_cases m ((n + 1) * K)) as [|Hge]; [done|]. exfalso.
      assert ((n + 1) * K * b ≤ m * b)
        by (apply Z.mul_le_mono_nonneg_r; lia).
      assert (r * K ≤ (b - 1) * K)
        by (apply Z.mul_le_mono_nonneg_r; lia).
      replace ((n + 1) * K * b) with (n * K * b + K * b) in * by ring.
      replace ((b - 1) * K) with (K * b - K) in * by ring.
      replace (2 * m * b) with (2 * (m * b)) in * by ring.
      lia. }
    symmetry. apply (Z.div_unique_pos m K n (m - K * n)); lia.
Qed.

Lemma ilog2_ratio_mono a1 a2 b :
  0 < a1 ≤ a2 → 0 < b → ilog2_ratio a1 b ≤ ilog2_ratio a2 b.
Proof.
  intros [Ha1 Ha] Hb.
  destruct (ilog2_ratio_spec a1 b Ha1 Hb) as [Hge1 _].
  destruct (ilog2_ratio_spec a2 b ltac:(lia) Hb) as [_ Hlt2].
  destruct (Z.le_gt_cases (ilog2_ratio a1 b) (ilog2_ratio a2 b))
    as [|Hgt]; [done|]. exfalso.
  apply ratio_lt_ge in Hlt2. apply Hlt2.
  apply (ratio_ge_le_exp a2 b _ (ilog2_ratio a1 b)); [lia|done|lia|].
  unfold ratio_ge in *. pose proof (pow2_pos (- ilog2_ratio a1 b)).
  etrans; [exact Hge1|]. apply Z.mul_le_mono_nonneg_r; lia.
Qed.

Lemma pow_ge_2 d : 1 ≤ d → 2 ≤ 2 ^ d.
Proof.
  intros. replace d with (Z.succ (d - 1)) by lia.
  rewrite Z.pow_succ_r by lia. pose proof (pow_ge_1 (d - 1)). lia.
Qed.

(** The truncated float quotient grows with the dividend; an overflow
    stays an overflow. *)
Lemma truediv_trunc_mono a1 a2 b :
  0 < a1 ≤ a2 → 0 < b →
  match truediv_trunc a1 b, truediv_trunc a2 b with
  | Some t1, Some t2 => 0 ≤ t1 ≤ t2
  | None, Some _ => False
  | _, None => True
  end.
Proof.
  intros [Ha1 Ha] Hb. assert (Ha2 : 0 < a2) by lia.
  pose proof (ilog2_ratio_mono a1 a2 b ltac:(lia) Hb) as Hlg.
  pose proof (mantissa_bounds a1 b Ha1 Hb) as Hm1. cbv zeta in Hm1.
  pose proof (mantissa_bounds a2 b Ha2 Hb) as Hm2. cbv zeta in Hm2.
  unfold truediv_trunc.
  assert (H52 : 0 < 2 ^ 52) by (apply Z.pow_pos_nonneg; lia).
  assert (H5253 : 2 ^ 53 = 2 * 2 ^ 52) by (by rewrite <- Z.pow_succ_r).
  pose proof pow_53_1024 as Hbig.
  destruct (Z.eq_dec (ilog2_ratio a1 b) (ilog2_ratio a2 b)) as [Heq|Hne].
  - rewrite <- Heq in *.
    remember (ilog2_ratio a1 b - 52) as e eqn:Ee. clear Ee.
    pose proof (pow2_pos e) as Hpe. pose proof (pow2_pos (- e)) as Hpn.
    assert (Hmm : round_half_even (a1 * pow2 (- e)) (b * pow2 e)
                  ≤ round_half_even (a2 * pow2 (- e)) (b * pow2 e)).
    { apply round_half_even_mono; [nia|].
      apply Z.mul_le_mono_nonneg_r; lia. }
    remember (round_half_even (a1 * pow2 (- e)) (b * pow2 e)) as m1.
    remember (round_half_even (a2 * pow2 (- e)) (b * pow2 e)) as m2.
    assert (Hv : m1 * pow2 e ≤ m2 * pow2 e)
      by (apply Z.mul_le_mono_nonneg_r; lia).
    assert (0 ≤ m1 * pow2 e) by (apply Z.mul_nonneg_nonneg; lia).
    destruct (Z.leb_spec (2 ^ 1024) (m1 * pow2 e)),
      (Z.leb_spec (2 ^ 1024) (m2 * pow2 e)); try done; [lia|].
    split; [by apply Z.div_pos|by apply Z.div_le_mono].
  - assert (Hlt : ilog2_ratio a1 b - 52 < ilog2_ratio a2 b - 52) by lia.
    remember (ilog2_ratio a1 b - 52) as e1 eqn:Ee1.
    remember (ilog2_ratio a2 b - 52) as e2 eqn:Ee2. clear Ee1 Ee2 Hlg Hne.
    remember (round_half_even (a1 * pow2 (- e1)) (b * pow2 e1)) as m1.
    remember (round_half_even (a2 * pow2 (- e2)) (b * pow2 e2)) as m2.
    clear Heqm1 Heqm2.
    pose proof (pow2_ratio e1 e2 (e2 - e1) ltac:(lia) ltac:(lia)) as Hr.
    pose proof (pow_ge_2 (e2 - e1) ltac:(lia)) as Hd.
    remember (2 ^ (e2 - e1)) as c eqn:Ec. clear Ec.
    remember (2 ^ 52) as P eqn:EP. remember (2 ^ 53) as Q eqn:EQ.
    remember (2 ^ 1024) as B eqn:EB. clear EP EQ EB.
    destruct (Z.le_gt_cases 0 e1) as [He1|He1];
      [|destruct (Z.le_gt_cases 0 e2) as [He2|He2]].
    + rewrite (pow2_nonpos (- e1)), (pow2_nonpos (- e2)) in * by lia.
      pose proof (pow2_pos e1). pose proof (pow2_pos e2).
      remember (pow2 e1) as E1 eqn:EE1. remember (pow2 e2) as E2 eqn:EE2.
      clear EE1 EE2. rewrite !Z.mul_1_r in Hr. rewrite !Z.div_1_r.
      assert (Hv : m1 * E1 ≤ m2 * E2).
      { transitivity (Q * E1); [apply Z.mul_le_mono_nonneg_r; lia|].
        transitivity (P * E2); [|apply Z.mul_le_mono_nonneg_r; lia].
        rewrite H5253, Hr.
        replace (2 * P * E1) with (2 * (P * E1)) by ring.
        replace (P * (c * E1)) with (c * (P * E1)) by ring.
        apply Z.mul_le_mono_nonneg_r; [|lia].
        apply Z.mul_nonneg_nonneg; lia. }
      assert (0 ≤ m1 * E1) by (apply Z.mul_nonneg_nonneg; lia).
      destruct (Z.leb_spec B (m1 * E1)), (Z.leb_spec B (m2 * E2));
        try done; lia.
    + assert (HK1 : 2 ≤ pow2 (- e1))
        by (rewrite pow2_nonneg by lia; apply pow_ge_2; lia).
      rewrite (pow2_nonpos e1), (pow2_nonpos (- e2)) in * by lia.
      pose proof (pow2_pos e2).
      remember (pow2 (- e1)) as K1 eqn:EK1. remember (pow2 e2) as E2 eqn:EE2.
      clear EK1 EE2 Hr. rewrite !Z.mul_1_r. rewrite !Z.div_1_r.
      assert (Ht1 : 0 ≤ m1 / K1 ≤ P).
      { split; [apply Z.div_pos; lia|].
        apply Z.div_le_upper_bound; [lia|].
        transitivity (2 * P); [lia|].
        apply Z.mul_le_mono_nonneg_r; lia. }
      assert (Hv2 : P ≤ m2 * E2).
      { transitivity (m2 * 1); [lia|].
        apply Z.mul_le_mono_nonneg_l; lia. }
      destruct (Z.leb_spec B m1); [lia|].
      destruct (Z.leb_spec B (m2 * E2)); [done|lia].
    + rewrite (pow2_nonpos e1), (pow2_nonpos e2) in * by lia.
      pose proof (pow2_pos (- e1)). pose proof (pow2_pos (- e2)).
      remember (pow2 (- e1)) as K1 eqn:EK1.
      remember (pow2 (- e2)) as K2 eqn:EK2. clear EK1 EK2.
      rewrite !Z.mul_1_r in *. rewrite Z.mul_1_l in Hr.
      destruct (Z.leb_spec B m1); [lia|].
      destruct (Z.leb_spec B m2); [lia|].
      split; [apply Z.div_pos; lia|].
      transitivity (Q / K1); [apply Z.div_le_mono; lia|].
      transitivity (Q / (2 * K2)).
      { apply Z.div_le_compat_l; [lia|]. split; [lia|].
        rewrite Hr. apply Z.mul_le_mono_nonneg_r; lia. }
      transitivity (P / K2); [|apply Z.div_le_mono; lia].
      rewrite H5253, Z.div_mul_cancel_l by lia. lia.
Qed.


Lemma int_truediv_floor (a b : Z) :
  0 ≤ a < 2 ^ 53 → 0 < b → int_truediv a b = Ok (a `div` b).
Proof.
  intros Ha Hb. unfold int_truediv.
  rewrite bool_decide_eq_false_2 by lia. case_bool_decide as Hz.
  - subst. by rewrite Z.div_0_l by lia.
  - rewrite !Z.abs_eq by lia. rewrite truediv_trunc_exact by lia.
    rewrite !Z.sgn_pos by lia. f_equal. lia.
Qed.

Lemma int_truediv_mono (a1 a2 b : Z) :
  0 ≤ a1 ≤ a2 → 0 < b →
  match int_truediv a1 b, int_truediv a2 b with
  | Ok t1, Ok t2 => 0 ≤ t1 ≤ t2
  | Raise _, Ok _ => False
  | _, Raise _ => True
  end.
Proof.
  intros Ha Hb. unfold int_truediv.
  rewrite bool_decide_eq_false_2 by lia.
  rewrite !(Z.abs_eq b), !(Z.sgn_pos b) by lia.
  case_bool_decide as Hz1; case_bool_decide as Hz2; try lia.
  - subst a1. rewrite Z.abs_eq, Z.sgn_pos by lia.
    pose proof (truediv_trunc_mono a2 a2 b ltac:(lia) Hb) as H.
    destruct (truediv_trunc a2 b); [lia|done].
  - rewrite !Z.abs_eq, !Z.sgn_pos by lia.
    pose proof (truediv_trunc_mono a1 a2 b ltac:(lia) Hb) as H.
    destruct (truediv_trunc a1 b), (truediv_trunc a2 b); try done. lia.
Qed.


End TrueDivisionFacts.

(** The window the handler leaves behind. *)
Lemma handler_window (self : ChainManager) (number : Z) :
  current_window (final (handler self number))
  = match int_truediv number (blocks_per_window self) with
    | Ok w => w
    | Raise _ => current_window self
    end.
Proof.
  unfold handler. simpl.
  destruct (int_truediv number (blocks_per_window self)) as [w|]; [|done].
  case_bool_decide as Hne; simpl; [done|].
  by destruct (decide (w = current_window self)).
Qed.

(** C6, the claim as amended: after a block notification the handler has
    processed, with a block number from 0 up to but excluding [2^53] and
    a positive window length, the current window is the floor of the
    current block divided by the window length (the float division of the
    code is exact in that range); with windows of 100 blocks, going from
    block 199 to 200 moves the window from 1 to 2 and going from 150 to
    180 leaves it at 1. *)
Theorem handler_window_invariant (self : ChainManager) (number : Z) :
  (0 ≤ number < 2 ^ 53)%Z → (0 < blocks_per_window self)%Z →
  (∃ self', handler self number = Returned self'
            ∧ current_block self' = number
            ∧ blocks_per_window self' = blocks_per_window self
            ∧ current_window self'
              = (current_block self' `div` blocks_per_window self')%Z)
  ∧ current_window (final (handler (manager_at 199 1) 200)) = 2%Z
  ∧ current_window (final (handler (manager_at 150 1) 180)) = 1%Z.
Proof.
  intros Hn Hw. split; [|split; by vm_compute].
  unfold handler. simpl. rewrite int_truediv_floor by done.
  case_bool_decide as Hne; eexists; (split; [reflexivity|]); simpl.
  - done.
  - repeat split. by destruct (decide ((number `div` blocks_per_window self)%Z
                                       = current_window self)).
Qed.

Lemma handler_window_invariant_witness :
  ∃ self', handler (manager_at 199 1) 200 = Returned self'
           ∧ current_block self' = 200%Z
           ∧ blocks_per_window self' = 100%Z
           ∧ current_window self'
             = (current_block self' `div` blocks_per_window self')%Z.
Proof.
  refine (proj1 (handler_window_invariant (manager_at 199 1) 200 _ _));
    [split|]; by vm_compute.
Defined.

(** C6 as stated fails: the code computes [int(block / length)] with a
    float division.  For block [2^53 + 1] and windows of one block the
    handler stores the block and the window [2^53], not the floor
    [2^53 + 1]. *)
Lemma handler_float_counterexample :
  current_block (final (handler unit_window_manager (2 ^ 53 + 1)))
  = (2 ^ 53 + 1)%Z
  ∧ current_window (final (handler unit_window_manager (2 ^ 53 + 1)))
    = (2 ^ 53)%Z
  ∧ ((2 ^ 53 + 1) `div` blocks_per_window unit_window_manager)%Z
    = (2 ^ 53 + 1)%Z
  ∧ (2 ^ 53 + 1)%Z ≠ (2 ^ 53)%Z.
Proof. repeat split; by vm_compute. Qed.

(** ** Peer classification *)

Lemma elem_of_peers (self : ChainManager) (uid : nat) :
  uid ∈ peers (update_peers_with_buckets self)
  ↔ is_Some (commitments self !! uid)
    ∧ (stake_of (metagraph self) uid <= 10000)%Q.
Proof.
  unfold update_peers_with_buckets. simpl.
  rewrite list_elem_of_In, filter_In, Qle_bool_iff, <- list_elem_of_In.
  rewrite list_elem_of_fmap. split.
  - intros [([k b] & -> & Hkb%elem_of_map_to_list) Hs]. eauto.
  - intros [[b Hb] Hs]. split; [|done].
    exists (uid, b). split; [done|]. by apply elem_of_map_to_list.
Qed.

(** C5: a slot is a peer exactly when it is a key of the commitment index
    and its stake is at most 10000; for the index [{1: r1, 2: r2, 3: r3}]
    and the stakes [{1: 500, 2: 20000, 3: 9999}] the peers are, as a set,
    1 and 3. *)
Theorem peers_classification :
  (∀ (self : ChainManager) (uid : nat),
     uid ∈ peers (update_peers_with_buckets self)
     ↔ is_Some (commitments self !! uid)
       ∧ (stake_of (metagraph self) uid <= 10000)%Q)
  ∧ (∀ (r1 r2 r3 : Bucket) (uid : nat),
       uid ∈ peers (update_peers_with_buckets
                      (manager_of three_members
                         (<[1%nat:=r1]> (<[2%nat:=r2]> (<[3%nat:=r3]> ∅)))))
       ↔ uid = 1%nat ∨ uid = 3%nat).
Proof.
  split; [apply elem_of_peers|].
  intros r1 r2 r3 uid. rewrite elem_of_peers. simpl.
  destruct uid as [|[|[|[|uid]]]]; split.
  - intros [[b Hb] _]. by simplify_map_eq.
  - intros [|]; lia.
  - by left.
  - intros _. split; [by simplify_map_eq|]. by vm_compute.
  - intros [_ Hs]. by vm_compute in Hs.
  - intros [|]; lia.
  - by right.
  - intros _. split; [by simplify_map_eq|]. by vm_compute.
  - intros [[b Hb] _]. by simplify_map_eq.
  - intros [|]; lia.
Qed.

(** C10: a UID that is a key of the commitment index and has no entry in
    the stake table counts with stake 0 and is a peer. *)
Theorem absent_stake_is_peer (self : ChainManager) (uid : nat) :
  is_Some (commitments self !! uid) →
  uid_to_stake (metagraph self) !! uid = None →
  stake_of (metagraph self) uid = 0%Q
  ∧ uid ∈ peers (update_peers_with_buckets self).
Proof.
  intros Hc Hs.
  assert (H0 : stake_of (metagraph self) uid = 0%Q)
    by (unfold stake_of; by rewrite Hs).
  split; [done|]. apply elem_of_peers. split; [done|].
  rewrite H0. by vm_compute.
Qed.

Lemma absent_stake_is_peer_witness :
  stake_of three_members 7 = 0%Q
  ∧ 7%nat ∈ peers (update_peers_with_buckets
                     (manager_of three_members {[7%nat := canonical_bucket]})).
Proof.
  refine (absent_stake_is_peer
            (manager_of three_members {[7%nat := canonical_bucket]}) 7 _ _).
  - simpl. rewrite lookup_singleton_eq. by eexists.
  - reflexivity.
Defined.

(** ** Commitment refresh *)

Lemma get_commitments_loop_app h pre post acc :
  get_commitments_loop h (pre ++ post) acc
  = match get_commitments_loop h pre acc with
    | Ok acc' => get_commitments_loop h post acc'
    | Raise x => Raise x
    end.
Proof.
  revert acc. induction pre as [|e pre IH]; intros acc; [done|].
  simpl. destruct (loop_body h e); by rewrite ?IH.
Qed.

Lemma get_commitments_loop_skip h e rest acc :
  loop_body h e = Skip →
  get_commitments_loop h (e :: rest) acc = get_commitments_loop h rest acc.
Proof. intros He. simpl. by rewrite He. Qed.

(** Once an entry is stored, the index is never empty again. *)
Lemma get_commitments_loop_nonempty h batch acc m :
  get_commitments_loop h batch acc = Ok m → acc ≠ ∅ → m ≠ ∅.
Proof.
  revert acc. induction batch as [|e batch IH]; intros acc Hm Hacc.
  - by injection Hm as <-.
  - simpl in Hm. destruct (loop_body h e); [by eapply IH| |done].
    eapply IH; [done|]. apply insert_non_empty.
Qed.

Lemma get_commitments_loop_empty h batch :
  get_commitments_loop h batch ∅ = Ok ∅
  ↔ Forall (fun e => loop_body h e = Skip) batch.
Proof.
  induction batch as [|e batch IH]; [by split|].
  rewrite Forall_cons. simpl. destruct (loop_body h e) eqn:He.
  - rewrite IH. split; [by split|by intros [_ ?]].
  - split; [|by intros [? _]]. intros Hm.
    apply get_commitments_loop_nonempty in Hm; [done|].
    apply insert_non_empty.
  - split; [done|by intros [? _]].
Qed.

Lemma install_empty self : install self ∅ = self.
Proof. unfold install. by rewrite bool_decide_eq_false_2 by (by intros ?). Qed.

(** C2: a refresh whose pass over the ledger's records yields no decoded
    pair (every entry of the sequence, if any, is skipped) leaves the
    manager as it was: the commitment index is the previous one and the
    peers are not recomputed. *)
Theorem refresh_non_destructive (self : ChainManager)
    (query : option (list entry)) :
  get_commitments self query = Ok ∅ →
  (∃ batch, query = Some batch
            ∧ Forall (fun e => loop_body (hotkey_to_uid self) e = Skip) batch)
  ∧ fetch_commitments self query = Returned self
  ∧ fetch_commitments_periodically_step self query = self
  ∧ commitments (final (fetch_commitments self query)) = commitments self
  ∧ peers (final (fetch_commitments self query)) = peers self.
Proof.
  intros H. split.
  - destruct query as [batch|]; [|done]. exists batch. split; [done|].
    by apply get_commitments_loop_empty.
  - unfold fetch_commitments, fetch_commitments_periodically_step.
    rewrite H, install_empty. done.
Qed.

Lemma refresh_non_destructive_witness :
  fetch_commitments indexed_manager (Some [malformed_entry])
  = Returned indexed_manager
  ∧ fetch_commitments indexed_manager (Some []) = Returned indexed_manager.
Proof.
  split.
  - refine (proj1 (proj2 (refresh_non_destructive indexed_manager
                            (Some [malformed_entry]) _))).
    by vm_compute.
  - refine (proj1 (proj2 (refresh_non_destructive indexed_manager
                            (Some []) _))).
    reflexivity.
Defined.

(** C7: an entry whose payload fails to decode is skipped and nothing
    else: the refresh of a batch with such an entry gives what the batch
    without it gives; a payload of 100 characters is dropped while its
    well-formed sibling is indexed; and a batch without a valueless dict
    is never aborted, however many of its payloads fail to decode. *)
Theorem decode_failure_is_contained (self : ChainManager)
    (pre post : list entry) (e : entry) (uid : nat)
    (field_value : list N) (vs : list (list N)) (fs : list field) :
  hotkey_to_uid self !! key e = Some uid →
  fields e = FieldDict (field_value :: vs) :: fs →
  decode_fails field_value →
  get_commitments self (Some (pre ++ e :: post))
  = get_commitments self (Some (pre ++ post))
  ∧ (Forall has_no_empty_dict (pre ++ e :: post) →
     is_ok (get_commitments self (Some (pre ++ e :: post))) = true)
  ∧ decode_field_value (wire (replicate 100 0x61)) = InvalidLength 100
  ∧ get_commitments (manager_of three_members ∅)
      (Some [malformed_entry; sibling_entry])
    = Ok {[3%nat := canonical_bucket]}.
Proof.
  intros Hk Hf Hd.
  assert (He : loop_body (hotkey_to_uid self) e = Skip).
  { unfold loop_body. rewrite Hk, Hf.
    destruct (decode_field_value field_value) eqn:E; [|done..].
    by destruct (Hd bucket). }
  split; [|split; [|split]].
  - simpl. rewrite !get_commitments_loop_app.
    destruct (get_commitments_loop _ pre ∅); [|done].
    by apply get_commitments_loop_skip.
  - simpl. generalize (pre ++ e :: post).
    intros batch. generalize (∅ : gmap nat Bucket).
    induction batch as [|x batch IH]; intros acc Hall; [done|].
    apply Forall_cons in Hall as [Hx Hall]. simpl.
    destruct (loop_body (hotkey_to_uid self) x) eqn:Ex; [by apply IH..|].
    exfalso. unfold loop_body in Ex.
    destruct (hotkey_to_uid self !! key x); [|done].
    destruct (fields x) as [|[|[|v vs']] fs'] eqn:Efs; [done..| |].
    + by destruct (Hx fs').
    + by destruct (decode_field_value v).
  - by vm_compute.
  - by vm_compute.
Qed.

Lemma decode_failure_is_contained_witness :
  get_commitments (manager_of three_members ∅)
    (Some ([sibling_entry] ++ malformed_entry :: [sibling_entry]))
  = get_commitments (manager_of three_members ∅)
      (Some ([sibling_entry] ++ [sibling_entry])).
Proof.
  refine (proj1 (decode_failure_is_contained (manager_of three_members ∅)
                   [sibling_entry] [sibling_entry] malformed_entry 1
                   (wire (replicate 100 0x61)) [] [] _ _ _)).
  - reflexivity.
  - reflexivity.
  - intros bucket. by vm_compute.
Defined.

(** ** Decoding of wire payloads *)

Lemma decode_field_value_cases (field_value : list N) :
  match decode_field_value field_value with
  | Decoded b =>
      ∃ text, wire_text (strip_marker field_value) = Some text
              ∧ length (strip text) = 128%nat
              ∧ b = {| name := slice 0 32 (strip text);
                       account_id := slice 0 32 (strip text);
                       access_key_id := slice 32 64 (strip text);
                       secret_access_key := drop 64 (strip text) |}
  | InvalidLength n =>
      ∃ text, wire_text (strip_marker field_value) = Some text
              ∧ n = length (strip text) ∧ n ≠ 128%nat
  | Failed _ => wire_text (strip_marker field_value) = None
  end.
Proof.
  unfold decode_field_value, wire_text.
  destruct (fromhex (strip_marker field_value)) as [raw|]; simpl; [|done].
  destruct (decode_utf8 raw) as [text|]; [|done].
  case_bool_decide as Hlen; exists text; [done|].
  split; [done|]. split; [|done].
  by destruct (decide (length (strip text) = 128%nat)).
Qed.

(** What the bulk path does with a payload: decoding fails exactly when,
    after the marker is stripped, the hex decoding or the UTF-8 decoding
    fails, or the text stripped of leading and trailing white space does
    not have 128 characters; on success the fields are the slices
    [0:32), [32:64) and [64:128) of the stripped text, the name being the
    account id.  The parsing half of the point lookup fails exactly on a
    length other than 128. *)
Theorem decode_field_value_spec (field_value : list N) :
  (decode_fails field_value
   ↔ wire_text (strip_marker field_value) = None
     ∨ ∃ text, wire_text (strip_marker field_value) = Some text
               ∧ length (strip text) ≠ 128%nat)
  ∧ (∀ b, decode_field_value field_value = Decoded b →
       ∃ text, wire_text (strip_marker field_value) = Some text
               ∧ length (strip text) = 128%nat
               ∧ name b = slice 0 32 (strip text)
               ∧ account_id b = slice 0 32 (strip text)
               ∧ access_key_id b = slice 32 64 (strip text)
               ∧ secret_access_key b = slice 64 128 (strip text))
  ∧ (∀ c, is_ok (parse_commitment c) = true ↔ length c = 128%nat).
Proof.
  pose proof (decode_field_value_cases field_value) as H.
  split; [|split].
  - unfold decode_fails.
    destruct (decode_field_value field_value) as [b|n|e].
    + destruct H as (text & Ht & Hl & _). split.
      * intros Hf. by destruct (Hf b).
      * intros [Hn|(text' & Ht' & Hl')]; congruence.
    + destruct H as (text & Ht & -> & Hl). split; [|done].
      intros _. right. by exists text.
    + split; [by left|done].
  - intros b Hb. rewrite Hb in H. destruct H as (text & Ht & Hl & ->).
    exists text. repeat split; try done. simpl. unfold slice.
    by rewrite take_ge by lia.
  - apply parse_commitment_ok_iff.
Qed.

(** C4, where the code breaks the decoding rule: the bulk path tests the
    length after [strip()].  A payload whose text has exactly 128
    characters and ends with a space hex-decodes, yet is rejected with
    length 127, while the point lookup [get_commitment] accepts the same
    text; and a text of 129 characters that starts with a space is
    accepted, its fields being slices of the stripped text. *)
Theorem bulk_path_strips_before_length_test :
  wire_text (strip_marker (wire trailing_space_text))
  = Some trailing_space_text
  ∧ length trailing_space_text = 128%nat
  ∧ decode_field_value (wire trailing_space_text) = InvalidLength 127
  ∧ is_ok (get_commitment (manager_of three_members ∅) trailing_space_chain
             0) = true
  ∧ wire_text (strip_marker (wire leading_space_text))
    = Some leading_space_text
  ∧ length leading_space_text = 129%nat
  ∧ decode_field_value (wire leading_space_text) = Decoded canonical_bucket
  ∧ name canonical_bucket ≠ slice 0 32 leading_space_text.
Proof. repeat split; by vm_compute. Qed.

(** ** Self-commitment reconciliation *)

Lemma index_lookup (l : list (list N)) (x : list N) (i : nat) :
  index l x = Some i → l !! i = Some x.
Proof.
  revert i. induction l as [|y l IH]; intros i; [done|]. simpl.
  case_bool_decide as Hy; [by intros [= <-]; subst|].
  destruct (index l x) as [j|]; [|done]. intros [= <-]. by apply IH.
Qed.

Lemma observed_record_lengths self chain address obs :
  observed_record self chain address obs →
  length (name obs) = 32%nat ∧ length (access_key_id obs) = 32%nat
  ∧ length (secret_access_key obs) = 64%nat.
Proof.
  intros (uid & _ & Hg). unfold get_commitment in Hg.
  destruct (subtensor_get_commitment _ chain uid) as [c|]; [|done].
  by eapply parse_commitment_lengths.
Qed.

Lemma same_concatenation_tuple obs bucket :
  length (name obs) = 32%nat → length (access_key_id obs) = 32%nat →
  length (secret_access_key obs) = 64%nat →
  compared_widths bucket →
  same_concatenation obs bucket → same_tuple obs bucket.
Proof.
  intros Hn Hk Hs (Hn' & Hk' & Hs') Heq. unfold same_concatenation in Heq.
  pose proof (f_equal length Heq) as Hlen. rewrite !length_app in Hlen.
  apply app_inj_1 in Heq as [Heq ?]; [|rewrite !length_app; lia].
  apply app_inj_1 in Heq as [? ?]; [|lia]. done.
Qed.

(** What [try_commit] does, in terms of the compared strings. *)
Lemma try_commit_cases self chain address bucket :
  (try_commit self chain address bucket = chain
   ∧ ∃ obs, observed_record self chain address obs
            ∧ same_concatenation obs bucket)
  ∨ (try_commit self chain address bucket = commit chain address bucket
     ∧ ¬ ∃ obs, observed_record self chain address obs
                ∧ same_concatenation obs bucket).
Proof.
  unfold try_commit, commitment_matches, observed_record, same_concatenation.
  destruct (index (hotkeys (metagraph self)) address) as [uid|] eqn:Hi.
  - destruct (get_commitment self chain uid) as [obs|e] eqn:Hg.
    + case_bool_decide as Hne.
      * right. split; [done|]. intros (obs' & (uid' & [= <-] & Hg') & Heq).
        rewrite Hg in Hg'. injection Hg' as <-. by destruct Hne.
      * left. split; [done|]. exists obs. split; [by exists uid|].
        by destruct (decide ((name obs ++ access_key_id obs)
                               ++ secret_access_key obs
                             = (name bucket ++ access_key_id bucket)
                                 ++ secret_access_key bucket)) as [<-|].
    + right. split; [done|]. intros (obs' & (uid' & [= <-] & Hg') & _).
      congruence.
  - right. split; [done|]. by intros (obs' & (uid' & ? & _) & _).
Qed.

Lemma submitted_commit_ne chain address bucket :
  submitted (commit chain address bucket) ≠ submitted chain.
Proof.
  simpl. intros H%(f_equal length). rewrite length_app in H. simpl in H. lia.
Qed.

(** C3, the claim as amended: reconciliation issues no [subtensor.commit]
    exactly when a record is observed whose concatenation name, access key
    id, secret equals the intended one, which a field-wise equal tuple
    always gives and which, for an intended record with the widths of the
    data model (name of at most 32 characters, access key id of 32, secret
    of at most 64), is field-wise equality of the tuples; in every other
    case it issues exactly one, with the intended record's encoding. *)
Theorem try_commit_reconciles (self : ChainManager) (chain : Chain)
    (address : list N) (bucket : Bucket) :
  (submitted (try_commit self chain address bucket) = submitted chain
   ∨ submitted (try_commit self chain address bucket)
     = submitted chain ++ [(address, concatenated bucket)])
  ∧ (submitted (try_commit self chain address bucket) = submitted chain
     ↔ ∃ obs, observed_record self chain address obs
              ∧ same_concatenation obs bucket)
  ∧ ((∃ obs, observed_record self chain address obs ∧ same_tuple obs bucket)
     → submitted (try_commit self chain address bucket) = submitted chain)
  ∧ (compared_widths bucket →
     (submitted (try_commit self chain address bucket) = submitted chain
      ↔ ∃ obs, observed_record self chain address obs
               ∧ same_tuple obs bucket)).
Proof.
  assert (Htc : ∀ obs, same_tuple obs bucket → same_concatenation obs bucket).
  { intros obs (Hn & Hk & Hs). unfold same_concatenation.
    by rewrite Hn, Hk, Hs. }
  destruct (try_commit_cases self chain address bucket)
    as [[-> (obs & Ho & Heq)]|[-> Hno]].
  - split; [by left|]. split; [split; [|done]; intros _; by exists obs|].
    split; [done|].
    intros Hw. split; [|done]. intros _. exists obs. split; [done|].
    destruct (observed_record_lengths _ _ _ _ Ho) as (? & ? & ?).
    by apply same_concatenation_tuple.
  - pose proof (submitted_commit_ne chain address bucket) as Hne.
    assert (Hnt : ¬ ∃ obs, observed_record self chain address obs
                           ∧ same_tuple obs bucket).
    { intros (obs & Ho & Ht). destruct Hno. eauto. }
    split; [by right|]. split; [done|]. split; [done|]. by intros _.
Qed.

Lemma try_commit_reconciles_witness :
  submitted (try_commit (manager_of three_members ∅) published_chain
               (lit "hk1") canonical_bucket)
  = submitted published_chain
  ↔ ∃ obs, observed_record (manager_of three_members ∅) published_chain
             (lit "hk1") obs
           ∧ same_tuple obs canonical_bucket.
Proof.
  refine (proj2 (proj2 (proj2
            (try_commit_reconciles (manager_of three_members ∅)
               published_chain (lit "hk1") canonical_bucket))) _).
  repeat split; simpl; lia.
Defined.

(** C3 as stated fails: the comparison is made on the concatenation.  The
    intended record of 31 + 33 + 64 characters differs from the observed
    one in name and access key id, and nothing is submitted. *)
Lemma try_commit_shifted_counterexample :
  submitted (try_commit (manager_of three_members ∅) published_chain
               (lit "hk1") shifted_bucket)
  = submitted published_chain
  ∧ ¬ ∃ obs, observed_record (manager_of three_members ∅) published_chain
               (lit "hk1") obs
             ∧ same_tuple obs shifted_bucket.
Proof.
  split; [by vm_compute|].
  intros (obs & (uid & Hi & Hg) & Hn & _).
  vm_compute in Hi. injection Hi as <-.
  vm_compute in Hg. injection Hg as <-.
  apply (f_equal length) in Hn. by vm_compute in Hn.
Qed.

Lemma try_commit_ok self chain address bucket u :
  commitment_matches self chain address bucket = Ok u →
  try_commit self chain address bucket = chain.
Proof. intros H. unfold try_commit. by rewrite H. Qed.

Lemma try_commit_raise self chain address bucket e :
  commitment_matches self chain address bucket = Raise e →
  try_commit self chain address bucket = commit chain address bucket.
Proof. intros H. unfold try_commit. by rewrite H. Qed.

Lemma slices_rejoin (c : list N) :
  (slice 0 32 c ++ slice 32 64 c) ++ drop 64 c = c.
Proof.
  unfold slice. rewrite drop_0.
  replace (take 32 c) with (take 32 (take 64 c))
    by (rewrite take_take; f_equal).
  by rewrite !take_drop.
Qed.

Lemma commitment_matches_after_commit self chain address bucket :
  length (concatenated bucket) = 128%nat →
  name bucket = account_id bucket →
  is_Some (index (hotkeys (metagraph self)) address) →
  commitment_matches self (commit chain address bucket) address bucket
  = Ok tt.
Proof.
  intros Hlen Hname [uid Hi].
  unfold commitment_matches, get_commitment, subtensor_get_commitment.
  rewrite Hi, (index_lookup _ _ _ Hi). simpl.
  rewrite bool_decide_eq_true_2 by done.
  unfold parse_commitment. rewrite bool_decide_eq_false_2 by (by intros ?).
  simpl. rewrite slices_rejoin, Hname.
  by rewrite bool_decide_eq_false_2 by (by intros ?).
Qed.

(** C8, the claim as amended: for an intended record whose encoding has
    exactly 128 characters and whose name is its account id, with the
    hotkey in the membership view and a ledger that serves a submitted
    record at once, two reconciliations in succession issue at most one
    [subtensor.commit]: one when the first run finds no matching record,
    none when it finds one; the second run issues none. *)
Theorem try_commit_twice_at_most_once (self : ChainManager) (chain : Chain)
    (address : list N) (bucket : Bucket) :
  length (concatenated bucket) = 128%nat →
  name bucket = account_id bucket →
  is_Some (index (hotkeys (metagraph self)) address) →
  submitted (try_commit_twice self chain address bucket)
  = submitted (try_commit self chain address bucket)
  ∧ (commitment_matches self chain address bucket = Ok tt →
     submitted (try_commit_twice self chain address bucket)
     = submitted chain)
  ∧ (∀ e, commitment_matches self chain address bucket = Raise e →
     submitted (try_commit_twice self chain address bucket)
     = submitted chain ++ [(address, concatenated bucket)]).
Proof.
  intros Hlen Hname Hi. unfold try_commit_twice.
  destruct (commitment_matches self chain address bucket) as [u|e] eqn:Hm.
  - rewrite (try_commit_ok _ _ _ _ _ Hm), (try_commit_ok _ _ _ _ _ Hm).
    split; [done|]. split; [done|]. by intros e [=].
  - rewrite (try_commit_raise _ _ _ _ _ Hm).
    pose proof (commitment_matches_after_commit self chain address bucket
                  Hlen Hname Hi) as Hafter.
    rewrite (try_commit_ok _ _ _ _ _ Hafter).
    split; [done|]. split; [by intros [=]|]. by intros e' _.
Qed.

Lemma try_commit_twice_at_most_once_witness :
  submitted (try_commit_twice (manager_of three_members ∅) empty_chain
               (lit "hk1") canonical_bucket)
  = submitted (try_commit (manager_of three_members ∅) empty_chain
                 (lit "hk1") canonical_bucket).
Proof.
  refine (proj1 (try_commit_twice_at_most_once (manager_of three_members ∅)
                   empty_chain (lit "hk1") canonical_bucket _ _ _)).
  - reflexivity.
  - reflexivity.
  - by eexists.
Defined.

(** C8 as stated fails in both directions: on a ledger that already holds
    the intended record two runs issue no [subtensor.commit], and for an
    intended record whose encoding is shorter than 128 characters each of
    the two runs issues one. *)
Lemma try_commit_twice_counterexample :
  submitted (try_commit_twice (manager_of three_members ∅) published_chain
               (lit "hk1") canonical_bucket) = []
  ∧ submitted (try_commit_twice (manager_of three_members ∅) empty_chain
                 (lit "hk1") short_secret_bucket)
    = [(lit "hk1", concatenated short_secret_bucket);
       (lit "hk1", concatenated short_secret_bucket)].
Proof. split; by vm_compute. Qed.

(** * Proofs about the remaining methods *)

(** ** Hex payloads *)

Lemma hex_char_digit (d : N) :
  d < 16 → hex_digit (hex_char d) = Some d ∧ ascii_space (hex_char d) = false
           ∧ hex_char d ≠ 0x78.
Proof.
  intros Hd. destruct d as [|p]; [by vm_compute|].
  do 4 (try destruct p as [p|p|]); try lia; by vm_compute.
Qed.

Lemma fromhex_hexlify (bs : list N) :
  Forall (fun b => b < 256) bs → fromhex (hexlify bs) = Some bs.
Proof.
  induction 1 as [|b bs Hb _ IH]; [done|].
  assert (b `div` 16 < 16) as H1 by (apply N.Div0.div_lt_upper_bound; lia).
  assert (b `mod` 16 < 16) as H2 by (apply N.mod_lt; lia).
  destruct (hex_char_digit _ H1) as (Hd1 & Hs1 & _).
  destruct (hex_char_digit _ H2) as (Hd2 & _ & _).
  change (hexlify (b :: bs))
    with (hex_char (b `div` 16) :: hex_char (b `mod` 16) :: hexlify bs).
  cbn [fromhex]. rewrite Hs1, Hd1, Hd2, IH. simpl. f_equal. f_equal.
  rewrite (N.div_mod' b 16) at 3. lia.
Qed.

Lemma hexlify_no_marker (bs : list N) :
  Forall (fun b => b < 256) bs → startswith (hexlify bs) (lit "0x") = false.
Proof.
  destruct 1 as [|b bs Hb _]; [done|].
  assert (b `mod` 16 < 16) as H2 by (apply N.mod_lt; lia).
  destruct (hex_char_digit _ H2) as (_ & _ & Hx).
  change (hexlify (b :: bs))
    with (hex_char (b `div` 16) :: hex_char (b `mod` 16) :: hexlify bs).
  cbn [startswith lit]. apply andb_false_iff. right.
  apply andb_false_iff. left. apply N.eqb_neq. by intros ?.
Qed.

Lemma decode_utf8_ascii (bs : list N) :
  Forall (fun b => b < 128) bs → decode_utf8 bs = Some bs.
Proof.
  induction 1 as [|b bs Hb _ IH]; [done|].
  cbn [decode_utf8]. apply N.ltb_lt in Hb. change 0x80 with 128.
  by rewrite Hb, IH.
Qed.

Lemma lstrip_id (text : list N) :
  (∀ c, head text = Some c → isspace c = false) → lstrip text = text.
Proof.
  destruct text as [|c text]; [done|]. intros H. simpl.
  by rewrite (H c).
Qed.

Lemma strip_id (text : list N) : no_outer_space text → strip text = text.
Proof.
  intros [Hh Hl]. unfold strip, rstrip. rewrite (lstrip_id text) by done.
  rewrite lstrip_id; [apply reverse_involutive|].
  intros c. rewrite head_reverse. apply Hl.
Qed.

Lemma Forall_ascii_byte (text : list N) :
  Forall (fun b => b < 128) text → Forall (fun b => b < 256) text.
Proof. intros H. eapply Forall_impl; [done|]. intros b Hb. simpl in *. lia. Qed.

(** X1: on an ASCII text without white space at either end the two
    decoders agree, with or without the marker: the bulk path decodes the
    hex of a text of 128 characters to the bucket the point lookup parses
    from it, and reports the length of any other text. *)
Theorem decoders_agree (text : list N) :
  Forall (fun c => c < 128) text → no_outer_space text →
  decode_field_value (hexlify text) = decode_field_value (wire text)
  ∧ match parse_commitment text with
    | Ok bucket => decode_field_value (wire text) = Decoded bucket
    | Raise _ => decode_field_value (wire text) = InvalidLength (length text)
    end.
Proof.
  intros Hascii Hspace.
  pose proof (Forall_ascii_byte _ Hascii) as Hbyte.
  assert (Hm : strip_marker (wire text) = hexlify text)
    by (unfold strip_marker, wire; simpl; by destruct (hexlify text)).
  assert (Hn : strip_marker (hexlify text) = hexlify text).
  { unfold strip_marker. by rewrite hexlify_no_marker. }
  unfold decode_field_value, parse_commitment.
  rewrite Hm, Hn, fromhex_hexlify, decode_utf8_ascii, strip_id by done.
  split; [done|]. by case_bool_decide.
Qed.

Lemma decoders_agree_witness :
  decode_field_value (hexlify (concatenated canonical_bucket))
  = decode_field_value (wire (concatenated canonical_bucket))
  ∧ match parse_commitment (concatenated canonical_bucket) with
    | Ok bucket =>
        decode_field_value (wire (concatenated canonical_bucket))
        = Decoded bucket
    | Raise _ =>
        decode_field_value (wire (concatenated canonical_bucket))
        = InvalidLength (length (concatenated canonical_bucket))
    end.
Proof.
  refine (decoders_agree (concatenated canonical_bucket) _ _).
  - apply (bool_decide_unpack _). by vm_compute.
  - split; intros c [= <-]; reflexivity.
Defined.

Lemma fromhex_invalid_char (s : list N) (c : N) :
  c ∈ s → hex_digit c = None → ascii_space c = false → fromhex s = None.
Proof.
  intros Hin Hd Hs. remember (length s) as n eqn:Hn. revert s Hn Hin.
  induction n as [n IH] using lt_wf_ind. intros s Hn Hin.
  destruct s as [|c0 s]; [by apply elem_of_nil in Hin|].
  cbn [fromhex]. destruct (ascii_space c0) eqn:Hs0.
  - apply elem_of_cons in Hin as [->|Hin]; [congruence|].
    apply (IH (length s)); [simpl in Hn; lia|done|done].
  - destruct (hex_digit c0) as [top|] eqn:Hd0; [|done].
    destruct s as [|c1 s]; [done|].
    destruct (hex_digit c1) as [bot|] eqn:Hd1; [|done].
    apply elem_of_cons in Hin as [->|Hin]; [congruence|].
    apply elem_of_cons in Hin as [->|Hin]; [congruence|].
    rewrite (IH (length s)); [done|simpl in Hn; lia|done|done].
Qed.

Lemma fromhex_hex_only (s : list N) :
  Forall is_hex s → is_Some (fromhex s) ↔ Nat.Even (length s).
Proof.
  remember (length s) as n eqn:Hn. revert s Hn.
  induction n as [n IH] using lt_wf_ind. intros s Hn Hall.
  destruct s as [|c0 s]; [subst; split; [by exists 0%nat|by eexists]|].
  apply Forall_cons in Hall as [[d0 H0] Hall].
  assert (Hs0 : ascii_space c0 = false).
  { unfold hex_digit in H0. unfold ascii_space.
    repeat match type of H0 with
           | context [?a <=? ?b] => destruct (N.leb_spec a b)
           end; simpl in H0; try done;
    repeat match goal with
           | |- context [?a <=? ?b] => destruct (N.leb_spec a b)
           | |- context [?a =? ?b] => destruct (N.eqb_spec a b)
           end; simpl; try done; lia. }
  cbn [fromhex]. rewrite Hs0, H0.
  destruct s as [|c1 s].
  { subst. split; [by intros [? ?]|]. intros [k Hk]. simpl in Hk. lia. }
  apply Forall_cons in Hall as [[d1 H1] Hall]. rewrite H1.
  specialize (IH (length s) ltac:(simpl in Hn; lia) s eq_refl Hall).
  rewrite fmap_is_Some, IH. subst n. simpl.
  split; intros [k Hk]; [exists (S k)|exists (k - 1)%nat]; lia.
Qed.

(** X2: a payload that, after the marker, holds a character that is
    neither a hex digit nor ASCII white space, or consists of an odd
    number of hex digits, fails with the [ValueError] of [bytes.fromhex]
    and is skipped. *)
Theorem invalid_hex_fails (field_value : list N) :
  (∀ c, c ∈ strip_marker field_value → hex_digit c = None →
        ascii_space c = false →
        decode_field_value field_value = Failed ValueError)
  ∧ (Forall is_hex (strip_marker field_value) →
     Nat.Odd (length (strip_marker field_value)) →
     decode_field_value field_value = Failed ValueError).
Proof.
  unfold decode_field_value. split.
  - intros c Hin Hd Hs. by rewrite (fromhex_invalid_char _ c).
  - intros Hall Hodd. destruct (fromhex (strip_marker field_value)) eqn:E;
      [|done].
    assert (Heven : Nat.Even (length (strip_marker field_value)))
      by (apply fromhex_hex_only; [done|by rewrite E]).
    destruct Heven as [k Hk], Hodd as [j Hj]. lia.
Qed.

Lemma invalid_hex_fails_witness :
  decode_field_value (lit "0xzz") = Failed ValueError
  ∧ decode_field_value (lit "0xabc") = Failed ValueError.
Proof.
  split.
  - refine (proj1 (invalid_hex_fails (lit "0xzz")) 0x7a _ _ _);
      [by vm_compute; set_solver|reflexivity|reflexivity].
  - refine (proj2 (invalid_hex_fails (lit "0xabc")) _ _).
    + apply (bool_decide_unpack _). by vm_compute.
    + by exists 1%nat.
Defined.

(** ** Dictionaries built from parallel lists *)

Section DictZip.
Context `{Countable K} {V : Type}.
Implicit Types (l : list (K * V)) (acc : gmap K V).

Lemma foldl_insert_notin l acc k :
  k ∉ l.*1 → foldl (fun m kv => <[kv.1 := kv.2]> m) acc l !! k = acc !! k.
Proof.
  revert acc. induction l as [|[k' v'] l IH]; intros acc Hk; [done|].
  simpl in *. apply not_elem_of_cons in Hk as [Hne Hk].
  rewrite IH by done. by rewrite lookup_insert_ne.
Qed.

Lemma foldl_insert_last l1 l2 acc k v :
  k ∉ l2.*1 →
  foldl (fun m kv => <[kv.1 := kv.2]> m) acc (l1 ++ (k, v) :: l2) !! k
  = Some v.
Proof.
  intros Hk. rewrite foldl_app. simpl. rewrite foldl_insert_notin by done.
  apply lookup_insert_eq.
Qed.

Lemma foldl_insert_Some l acc k v :
  foldl (fun m kv => <[kv.1 := kv.2]> m) acc l !! k = Some v →
  (k, v) ∈ l ∨ acc !! k = Some v.
Proof.
  revert acc. induction l as [|[k' v'] l IH]; intros acc Hl; [by right|].
  simpl in Hl. apply IH in Hl as [Hl|Hl]; [left; by right|].
  destruct (decide (k' = k)) as [->|Hne].
  - rewrite lookup_insert_eq in Hl. injection Hl as ->. left. by left.
  - rewrite lookup_insert_ne in Hl by done. by right.
Qed.

Lemma dict_zip_Some (ks : list K) (vs : list V) k v :
  dict_zip ks vs !! k = Some v → (k, v) ∈ zip ks vs.
Proof.
  intros [?|Hl]%foldl_insert_Some; [done|]. by rewrite lookup_empty in Hl.
Qed.

Lemma dict_zip_None (ks : list K) (vs : list V) k :
  k ∉ ks → dict_zip ks vs !! k = None.
Proof.
  intros Hk. unfold dict_zip. rewrite foldl_insert_notin; [done|].
  intros (kv & -> & Hin)%list_elem_of_fmap. destruct kv as [k' v'].
  by apply elem_of_zip_l in Hin.
Qed.

Lemma dict_zip_NoDup (ks : list K) (vs : list V) i k v :
  NoDup ks → ks !! i = Some k → vs !! i = Some v →
  dict_zip ks vs !! k = Some v.
Proof.
  intros Hnd Hk Hv. unfold dict_zip.
  assert (Hz : zip ks vs !! i = Some (k, v)).
  { rewrite lookup_zip_with. by rewrite Hk, Hv. }
  destruct (list_elem_of_split_length _ _ _ Hz) as (l1 & l2 & Hl & Hi).
  rewrite Hl. apply foldl_insert_last.
  intros (kv & Hkv & Hin)%list_elem_of_fmap. destruct kv as [k' v'].
  simpl in Hkv. subst k'.
  apply list_elem_of_lookup in Hin as [j Hj].
  assert (Hzj : zip ks vs !! (length l1 + S j)%nat = Some (k, v')).
  { rewrite Hl, lookup_app_r by lia.
    replace (length l1 + S j - length l1)%nat with (S j) by lia. done. }
  rewrite lookup_zip_with in Hzj.
  destruct (ks !! (length l1 + S j)%nat) as [k2|] eqn:Hk2; [|done].
  simpl in Hzj. destruct (vs !! (length l1 + S j)%nat); [|done].
  injection Hzj as -> _.
  pose proof (NoDup_lookup _ _ _ _ Hnd Hk Hk2). lia.
Qed.
End DictZip.

(** ** What a refresh indexes *)

Lemma loop_body_Store h e uid b :
  loop_body h e = Store uid b →
  h !! key e = Some uid
  ∧ ∃ fv vs fs, fields e = FieldDict (fv :: vs) :: fs
                ∧ decode_field_value fv = Decoded b.
Proof.
  unfold loop_body. destruct (h !! key e) as [uid'|]; [|done].
  destruct (fields e) as [|[|[|fv vs]] fs]; try done.
  destruct (decode_field_value fv) as [b'| |] eqn:Hd; try done.
  intros [= -> ->]. split; [done|]. by exists fv, vs, fs.
Qed.

Lemma loop_body_Abort h e x : loop_body h e = Abort x → x = RuntimeError.
Proof.
  unfold loop_body. destruct (h !! key e); [|done].
  destruct (fields e) as [|[|[|fv vs]] fs]; try done.
  - by intros [= <-].
  - by destruct (decode_field_value fv).
Qed.

Lemma decoded_has_shape fv b :
  decode_field_value fv = Decoded b → decoded_shape b.
Proof.
  intros Hd. pose proof (decode_field_value_cases fv) as H.
  rewrite Hd in H. destruct H as (text & _ & Hl & ->).
  unfold decoded_shape, slice. simpl.
  rewrite !length_drop, !length_take. repeat split; lia.
Qed.

Lemma get_commitments_loop_Some h batch acc m uid b :
  get_commitments_loop h batch acc = Ok m → m !! uid = Some b →
  acc !! uid = Some b ∨ ∃ e, e ∈ batch ∧ loop_body h e = Store uid b.
Proof.
  revert acc. induction batch as [|e batch IH]; intros acc Hm Hb.
  - injection Hm as <-. by left.
  - simpl in Hm. destruct (loop_body h e) as [|uid' b'|x] eqn:He; [| |done].
    + destruct (IH _ Hm Hb) as [?|(e' & ? & ?)]; [by left|].
      right. exists e'. split; [by right|done].
    + destruct (IH _ Hm Hb) as [Hacc|(e' & ? & ?)].
      * destruct (decide (uid' = uid)) as [->|Hne].
        -- rewrite lookup_insert_eq in Hacc. injection Hacc as ->.
           right. exists e. split; [by left|done].
        -- rewrite lookup_insert_ne in Hacc by done. by left.
      * right. exists e'. split; [by right|done].
Qed.

Lemma get_commitments_loop_Raise h batch acc x :
  get_commitments_loop h batch acc = Raise x → x = RuntimeError.
Proof.
  revert acc. induction batch as [|e batch IH]; intros acc Hm; [done|].
  simpl in Hm. destruct (loop_body h e) as [|uid' b'|x'] eqn:He; eauto.
  injection Hm as <-. by eapply loop_body_Abort.
Qed.

Lemma get_commitments_loop_keep h post acc m uid :
  get_commitments_loop h post acc = Ok m →
  Forall (fun e => ∀ b, loop_body h e ≠ Store uid b) post →
  m !! uid = acc !! uid.
Proof.
  revert acc. induction post as [|e post IH]; intros acc Hm Hall.
  - by injection Hm as <-.
  - apply Forall_cons in Hall as [He Hall]. simpl in Hm.
    destruct (loop_body h e) as [|uid' b'|x] eqn:Ee; [by eapply IH| |done].
    rewrite (IH _ Hm Hall). apply lookup_insert_ne. intros ->.
    by destruct (He b').
Qed.

(** X3: every bucket in the index [get_commitments] returns sits under a
    UID of the metagraph, has fields of 32, 32 and 64 characters with the
    account id as name, and was decoded from the first value of the first
    field of an entry of the batch whose key is a hotkey of the
    metagraph. *)
Theorem refreshed_index_sound (self : ChainManager)
    (query : option (list entry)) (m : gmap nat Bucket) (uid : nat)
    (b : Bucket) :
  get_commitments self query = Ok m → m !! uid = Some b →
  uid ∈ uids (metagraph self)
  ∧ decoded_shape b
  ∧ ∃ batch e fv vs fs,
      query = Some batch ∧ e ∈ batch
      ∧ key e ∈ hotkeys (metagraph self)
      ∧ fields e = FieldDict (fv :: vs) :: fs
      ∧ decode_field_value fv = Decoded b.
Proof.
  intros Hm Hb. destruct query as [batch|]; [|done]. simpl in Hm.
  destruct (get_commitments_loop_Some _ _ _ _ _ _ Hm Hb)
    as [Hacc|(e & He & Hs)]; [by rewrite lookup_empty in Hacc|].
  apply loop_body_Store in Hs as (Hk & fv & vs & fs & Hf & Hd).
  apply dict_zip_Some in Hk.
  split; [by eapply elem_of_zip_r|]. split; [by eapply decoded_has_shape|].
  exists batch, e, fv, vs, fs. repeat split; try done.
  by eapply elem_of_zip_l.
Qed.

Lemma refreshed_index_sound_witness :
  3%nat ∈ uids (metagraph (manager_of three_members ∅))
  ∧ decoded_shape canonical_bucket
  ∧ ∃ batch e fv vs fs,
      Some [malformed_entry; sibling_entry] = Some batch ∧ e ∈ batch
      ∧ key e ∈ hotkeys (metagraph (manager_of three_members ∅))
      ∧ fields e = FieldDict (fv :: vs) :: fs
      ∧ decode_field_value fv = Decoded canonical_bucket.
Proof.
  refine (refreshed_index_sound (manager_of three_members ∅)
            (Some [malformed_entry; sibling_entry])
            {[3%nat := canonical_bucket]} 3 canonical_bucket _ _).
  - by vm_compute.
  - reflexivity.
Defined.

(** X4: when several entries of a batch decode for the same UID, the
    index holds the bucket of the last of them. *)
Theorem last_entry_wins (self : ChainManager) (pre post : list entry)
    (e : entry) (m : gmap nat Bucket) (uid : nat) (b : Bucket) :
  get_commitments self (Some (pre ++ e :: post)) = Ok m →
  loop_body (hotkey_to_uid self) e = Store uid b →
  Forall (fun e' => ∀ b', loop_body (hotkey_to_uid self) e' ≠ Store uid b')
    post →
  m !! uid = Some b.
Proof.
  intros Hm He Hpost. simpl in Hm. rewrite get_commitments_loop_app in Hm.
  destruct (get_commitments_loop _ pre ∅) as [acc|]; [|done].
  simpl in Hm. rewrite He in Hm.
  rewrite (get_commitments_loop_keep _ _ _ _ _ Hm Hpost).
  apply lookup_insert_eq.
Qed.

Lemma last_entry_wins_witness :
  get_commitments (manager_of three_members ∅)
    (Some ([sibling_entry] ++ rotated_entry :: [malformed_entry]))
  = Ok {[3%nat := rotated_bucket]}
  ∧ ({[3%nat := rotated_bucket]} : gmap nat Bucket) !! 3%nat
    = Some rotated_bucket.
Proof.
  assert (H : get_commitments (manager_of three_members ∅)
                (Some ([sibling_entry] ++ rotated_entry :: [malformed_entry]))
              = Ok {[3%nat := rotated_bucket]}) by (by vm_compute).
  split; [exact H|].
  refine (last_entry_wins (manager_of three_members ∅) [sibling_entry]
            [malformed_entry] rotated_entry {[3%nat := rotated_bucket]} 3
            rotated_bucket H _ _).
  - by vm_compute.
  - repeat constructor. intros b'. by vm_compute.
Defined.

(** X5: an entry whose key is not a hotkey of the metagraph, which has no
    fields, or whose first field is not a dict is dropped without a
    trace: the batch gives what it gives without that entry. *)
Theorem unusable_entry_is_dropped (self : ChainManager)
    (pre post : list entry) (e : entry) :
  key e ∉ hotkeys (metagraph self) ∨ fields e = []
  ∨ (∃ fs, fields e = NotADict :: fs) →
  get_commitments self (Some (pre ++ e :: post))
  = get_commitments self (Some (pre ++ post)).
Proof.
  intros H.
  assert (He : loop_body (hotkey_to_uid self) e = Skip).
  { unfold loop_body. destruct H as [Hk|[Hf|[fs Hf]]].
    - unfold hotkey_to_uid. by rewrite dict_zip_None.
    - rewrite Hf. by destruct (hotkey_to_uid self !! key e).
    - rewrite Hf. by destruct (hotkey_to_uid self !! key e). }
  simpl. rewrite !get_commitments_loop_app.
  destruct (get_commitments_loop _ pre ∅); [|done].
  by apply get_commitments_loop_skip.
Qed.

Lemma unusable_entry_is_dropped_witness :
  get_commitments (manager_of three_members ∅)
    (Some ([] ++ stranger_entry :: [sibling_entry]))
  = get_commitments (manager_of three_members ∅)
      (Some ([] ++ [sibling_entry])).
Proof.
  refine (unusable_entry_is_dropped (manager_of three_members ∅) []
            [sibling_entry] stranger_entry _).
  left. apply (bool_decide_unpack _). by vm_compute.
Defined.

(** X6: an entry of a known hotkey whose first field is a dict without
    values makes [get_commitments] raise [RuntimeError] wherever it stands
    in the batch; [fetch_commitments] then raises and the periodic
    iteration swallows the exception, both leaving the manager as it
    was. *)
Theorem valueless_dict_aborts (self : ChainManager)
    (pre post : list entry) (e : entry) (uid : nat) (fs : list field) :
  hotkey_to_uid self !! key e = Some uid →
  fields e = FieldDict [] :: fs →
  get_commitments self (Some (pre ++ e :: post)) = Raise RuntimeError
  ∧ fetch_commitments self (Some (pre ++ e :: post))
    = Raised RuntimeError self
  ∧ fetch_commitments_periodically_step self (Some (pre ++ e :: post))
    = self.
Proof.
  intros Hk Hf.
  assert (Hg : get_commitments self (Some (pre ++ e :: post))
               = Raise RuntimeError).
  { simpl. rewrite get_commitments_loop_app.
    destruct (get_commitments_loop _ pre ∅) as [acc|x] eqn:Hpre.
    - simpl. unfold loop_body. by rewrite Hk, Hf.
    - by rewrite (get_commitments_loop_Raise _ _ _ _ Hpre). }
  unfold fetch_commitments, fetch_commitments_periodically_step.
  by rewrite Hg.
Qed.

Lemma valueless_dict_aborts_witness :
  get_commitments (manager_of three_members ∅)
    (Some ([sibling_entry] ++ valueless_entry :: [sibling_entry]))
  = Raise RuntimeError
  ∧ fetch_commitments (manager_of three_members ∅)
      (Some ([sibling_entry] ++ valueless_entry :: [sibling_entry]))
    = Raised RuntimeError (manager_of three_members ∅)
  ∧ fetch_commitments_periodically_step (manager_of three_members ∅)
      (Some ([sibling_entry] ++ valueless_entry :: [sibling_entry]))
    = manager_of three_members ∅.
Proof.
  refine (valueless_dict_aborts (manager_of three_members ∅) [sibling_entry]
            [sibling_entry] valueless_entry 2 [] _ _); reflexivity.
Defined.

(** ** Histories of refreshes and block notifications *)

Lemma get_commitments_metagraph s1 s2 query :
  metagraph s1 = metagraph s2 →
  get_commitments s1 query = get_commitments s2 query.
Proof.
  intros Hm. unfold get_commitments, hotkey_to_uid. by rewrite Hm.
Qed.

Lemma install_metagraph self new :
  metagraph (install self new) = metagraph self.
Proof. unfold install. by case_bool_decide. Qed.

Lemma step_metagraph self query :
  metagraph (fetch_commitments_periodically_step self query) = metagraph self.
Proof.
  unfold fetch_commitments_periodically_step.
  destruct (get_commitments self query); [apply install_metagraph|done].
Qed.

Lemma handler_frame self number :
  metagraph (final (handler self number)) = metagraph self
  ∧ commitments (final (handler self number)) = commitments self
  ∧ peers (final (handler self number)) = peers self
  ∧ blocks_per_window (final (handler self number)) = blocks_per_window self.
Proof.
  unfold handler. destruct (int_truediv _ _); [|done].
  by case_bool_decide.
Qed.

Lemma react_metagraph self ev : metagraph (react self ev) = metagraph self.
Proof.
  destruct ev as [number|query]; simpl.
  - apply handler_frame.
  - apply step_metagraph.
Qed.

Lemma run_metagraph self evs : metagraph (run self evs) = metagraph self.
Proof.
  revert self. induction evs as [|ev evs IH]; intros self; [done|].
  simpl. unfold run in IH. by rewrite IH, react_metagraph.
Qed.

Lemma install_consistent self new :
  peers_consistent self → peers_consistent (install self new).
Proof. unfold install. by case_bool_decide. Qed.

Lemma react_consistent self ev :
  peers_consistent self → peers_consistent (react self ev).
Proof.
  intros Hc. destruct ev as [number|query]; simpl.
  - destruct (handler_frame self number) as (Hm & Hi & Hp & _).
    unfold peers_consistent, update_peers_with_buckets in *. simpl in *.
    by rewrite Hm, Hi, Hp.
  - unfold fetch_commitments_periodically_step.
    destruct (get_commitments self query); [by apply install_consistent|done].
Qed.

(** X7: along every history of block notifications and refreshes of a
    manager whose metagraph stays the same, the peers remain the ones
    computed from the current index: a UID is a peer exactly when it has
    a bucket and its stake is at most 10000. *)
Theorem peers_follow_index (self : ChainManager) (evs : list event) :
  peers_consistent self →
  peers_consistent (run self evs)
  ∧ ∀ uid, uid ∈ peers (run self evs)
           ↔ is_Some (get_bucket (run self evs) uid)
             ∧ (stake_of (metagraph self) uid <= 10000)%Q.
Proof.
  intros Hc.
  assert (Hr : peers_consistent (run self evs)).
  { revert self Hc. induction evs as [|ev evs IH]; intros self Hc; [done|].
    apply (IH (react self ev)). by apply react_consistent. }
  split; [done|]. intros uid. rewrite Hr, elem_of_peers.
  by rewrite run_metagraph.
Qed.

Lemma peers_follow_index_witness :
  peers_consistent
    (run (new_manager three_members 100)
       [Refresh (Some [sibling_entry]); NewBlock 250]).
Proof.
  refine (proj1 (peers_follow_index (new_manager three_members 100)
                   [Refresh (Some [sibling_entry]); NewBlock 250] _)).
  reflexivity.
Defined.


Lemma step_effective self query new :
  get_commitments self query = Ok new → new ≠ ∅ →
  fetch_commitments_periodically_step self query
  = update_peers_with_buckets (set_commitments self new).
Proof.
  intros Hg Hne. unfold fetch_commitments_periodically_step, install.
  by rewrite Hg, bool_decide_eq_true_2.
Qed.

Lemma step_ineffective self query :
  ineffective self query →
  fetch_commitments_periodically_step self query = self.
Proof.
  intros Hq. unfold fetch_commitments_periodically_step.
  destruct (get_commitments self query) as [new|] eqn:Hg; [|done].
  rewrite (Hq new) by done. apply install_empty.
Qed.

Lemma ineffective_metagraph s1 s2 query :
  metagraph s1 = metagraph s2 → ineffective s1 query → ineffective s2 query.
Proof.
  intros Hm Hq new. rewrite <- (get_commitments_metagraph s1 s2) by done.
  apply Hq.
Qed.

(** X8: any number of periodic iterations in which the ledger read
    raises, the batch aborts or nothing is decoded leaves the manager
    exactly as it was. *)
Theorem failed_refreshes_change_nothing (self : ChainManager)
    (queries : list (option (list entry))) :
  Forall (ineffective self) queries →
  fetch_commitments_periodically self queries = self.
Proof.
  induction 1 as [|query queries Hq _ IH]; [done|].
  unfold fetch_commitments_periodically in *. simpl.
  by rewrite step_ineffective.
Qed.

Lemma failed_refreshes_change_nothing_witness :
  fetch_commitments_periodically indexed_manager
    [None; Some [malformed_entry]; Some [valueless_entry]]
  = indexed_manager.
Proof.
  refine (failed_refreshes_change_nothing indexed_manager
            [None; Some [malformed_entry]; Some [valueless_entry]] _).
  repeat constructor; intros new Hnew; vm_compute in Hnew;
    by try injection Hnew as <-.
Defined.

(** X9: the manager after a run of periodic iterations is determined by
    the last iteration that decoded something: its index replaces
    whatever earlier iterations installed, nothing is merged, and
    [get_bucket] answers from that index alone. *)
Theorem last_effective_refresh_wins (self : ChainManager)
    (earlier later : list (option (list entry)))
    (query : option (list entry)) (new : gmap nat Bucket) :
  get_commitments self query = Ok new → new ≠ ∅ →
  Forall (ineffective self) later →
  fetch_commitments_periodically self (earlier ++ query :: later)
  = update_peers_with_buckets (set_commitments self new)
  ∧ ∀ uid, get_bucket
             (fetch_commitments_periodically self (earlier ++ query :: later))
             uid
           = new !! uid.
Proof.
  intros Hg Hne Hlater.
  assert (Heq : fetch_commitments_periodically self (earlier ++ query :: later)
                = update_peers_with_buckets (set_commitments self new)).
  { unfold fetch_commitments_periodically. rewrite foldl_app. simpl.
    fold (fetch_commitments_periodically self earlier).
    set (s1 := fetch_commitments_periodically self earlier).
    assert (Hm1 : metagraph s1 = metagraph self).
    { unfold s1, fetch_commitments_periodically. clear.
      revert self. induction earlier as [|q qs IH]; intros self; [done|].
      simpl. by rewrite IH, step_metagraph. }
    assert (Hs1 : blocks_per_window s1 = blocks_per_window self
                  ∧ current_block s1 = current_block self
                  ∧ current_window s1 = current_window self).
    { unfold s1, fetch_commitments_periodically. clear.
      revert self. induction earlier as [|q qs IH]; intros self; [done|].
      simpl. destruct (IH (fetch_commitments_periodically_step self q))
        as (-> & -> & ->).
      unfold fetch_commitments_periodically_step, install.
      destruct (get_commitments self q); [|done]. by case_bool_decide. }
    rewrite (step_effective s1 query new);
      [|by rewrite (get_commitments_metagraph s1 self)|done].
    set (s2 := update_peers_with_buckets (set_commitments s1 new)).
    assert (Hs2 : s2 = update_peers_with_buckets (set_commitments self new)).
    { unfold s2, update_peers_with_buckets, set_commitments, set_peers.
      simpl. destruct Hs1 as (-> & -> & ->). by rewrite Hm1. }
    rewrite <- Hs2.
    apply (failed_refreshes_change_nothing s2 later).
    eapply Forall_impl; [done|]. intros q. apply ineffective_metagraph.
    rewrite Hs2. done. }
  split; [done|]. intros uid. by rewrite Heq.
Qed.

Lemma last_effective_refresh_wins_witness :
  fetch_commitments_periodically (new_manager three_members 100)
    ([Some [rotated_entry]] ++ Some [sibling_entry] :: [None])
  = update_peers_with_buckets
      (set_commitments (new_manager three_members 100)
         {[3%nat := canonical_bucket]}).
Proof.
  refine (proj1 (last_effective_refresh_wins (new_manager three_members 100)
                   [Some [rotated_entry]] [None] (Some [sibling_entry])
                   {[3%nat := canonical_bucket]} _ _ _)).
  - by vm_compute.
  - by vm_compute.
  - repeat constructor. by intros new Hnew.
Defined.

(** X10: after any history the index is the initial one or the non-empty
    result of one of the refreshes; an index that holds a bucket is never
    replaced by an empty one. *)
Theorem index_is_never_emptied (self : ChainManager) (evs : list event) :
  (commitments (run self evs) = commitments self
   ∨ ∃ query new, Refresh query ∈ evs
                  ∧ get_commitments self query = Ok new ∧ new ≠ ∅
                  ∧ commitments (run self evs) = new)
  ∧ (commitments self ≠ ∅ → commitments (run self evs) ≠ ∅).
Proof.
  assert (H : commitments (run self evs) = commitments self
              ∨ ∃ query new, Refresh query ∈ evs
                  ∧ get_commitments self query = Ok new ∧ new ≠ ∅
                  ∧ commitments (run self evs) = new).
  { induction evs as [|ev evs IH] using rev_ind; [by left|].
    unfold run in *. rewrite foldl_app. simpl.
    set (s := foldl react self evs) in *.
    assert (Hm : metagraph s = metagraph self) by apply run_metagraph.
    assert (Hold : commitments s = commitments self
              ∨ ∃ query new, Refresh query ∈ evs ++ [ev]
                  ∧ get_commitments self query = Ok new ∧ new ≠ ∅
                  ∧ commitments s = new).
    { destruct IH as [?|(q & new & Hin & ? & ? & ?)]; [by left|].
      right. exists q, new. split; [|done]. apply elem_of_app. by left. }
    destruct ev as [number|query]; simpl.
    - destruct (handler_frame s number) as (_ & -> & _). done.
    - unfold fetch_commitments_periodically_step, install.
      destruct (get_commitments s query) as [new|] eqn:Hg; [|done].
      case_bool_decide as Hne; [|done]. right. exists query, new.
      split; [apply elem_of_app; right; by left|].
      split; [by rewrite <- (get_commitments_metagraph s self)|done]. }
  split; [done|]. intros Hne.
  destruct H as [->|(q & new & _ & _ & ? & ->)]; done.
Qed.

Lemma index_is_never_emptied_witness :
  commitments (run indexed_manager [Refresh None; NewBlock 5]) ≠ ∅.
Proof.
  refine (proj2 (index_is_never_emptied indexed_manager
                   [Refresh None; NewBlock 5]) _).
  by vm_compute.
Defined.

(** X11: a block notification and a refresh iteration commute: the
    handler touches only the block and the window, the refresh only the
    index and the peers. *)
Theorem blocks_and_refreshes_commute (self : ChainManager) (number : Z)
    (query : option (list entry)) :
  react (react self (NewBlock number)) (Refresh query)
  = react (react self (Refresh query)) (NewBlock number).
Proof.
  simpl. unfold fetch_commitments_periodically_step.
  destruct (handler_frame self number) as (Hm & Hi & Hp & Hb).
  rewrite (get_commitments_metagraph _ self) by done.
  destruct (get_commitments self query) as [new|]; [|done].
  unfold install. case_bool_decide; [|done].
  unfold handler, update_peers_with_buckets, set_commitments, set_peers.
  simpl. destruct (int_truediv number (blocks_per_window self)); [|done].
  by case_bool_decide.
Qed.

(** ** Windows *)

(** X12: for a positive window length and a block from 0 up to but
    excluding [2^53], [block_to_window] returns the window whose first
    block (the block [window_to_seed] asks the hash of) is at or before
    the block and whose successor's first block is after it. *)
Theorem block_to_window_range (window_length block window : Z) :
  (0 < window_length)%Z → (0 ≤ block < 2 ^ 53)%Z →
  block_to_window window_length block = Ok window
  ↔ (seed_block window_length window ≤ block
     < seed_block window_length (window + 1))%Z.
Proof.
  intros Hw Hb. unfold block_to_window, seed_block.
  rewrite int_truediv_floor by done. split.
  - intros [= <-].
    pose proof (Z.mul_div_le block window_length Hw).
    pose proof (Z.mul_succ_div_gt block window_length Hw). lia.
  - intros [Hlo Hhi]. f_equal. symmetry.
    apply (Z.div_unique_pos block window_length window
             (block - window * window_length)); lia.
Qed.

Lemma block_to_window_range_witness :
  block_to_window 100 250 = Ok 2%Z
  ↔ (seed_block 100 2 ≤ 250 < seed_block 100 (2 + 1))%Z.
Proof.
  refine (block_to_window_range 100 250 2 _ _); [|split]; by vm_compute.
Defined.


(** X14: for a positive window length, a later notification with a block
    number at least as large never lowers the current window. *)
Theorem windows_never_go_back (self : ChainManager) (n1 n2 : Z) :
  (0 < blocks_per_window self)%Z → (0 ≤ n1 ≤ n2)%Z →
  (current_window (run self [NewBlock n1])
   ≤ current_window (run self [NewBlock n1; NewBlock n2]))%Z.
Proof.
  intros Hw Hn. unfold run. simpl. rewrite (handler_window _ n2).
  destruct (handler_frame self n1) as (_ & _ & _ & ->).
  rewrite handler_window.
  pose proof (int_truediv_mono n1 n2 (blocks_per_window self) Hn Hw) as H.
  destruct (int_truediv n1 (blocks_per_window self)),
    (int_truediv n2 (blocks_per_window self)); try done; lia.
Qed.

Lemma windows_never_go_back_witness :
  (current_window (run (manager_at 0 0) [NewBlock 150])
   ≤ current_window (run (manager_at 0 0) [NewBlock 150; NewBlock 320]))%Z.
Proof.
  refine (windows_never_go_back (manager_at 0 0) 150 320 _ _);
    [|split]; by vm_compute.
Defined.

(** ** Bucket and hotkey lookup *)

Lemma foldl_insert_fun {A} (f : nat → A) (l : list nat) (acc : gmap nat A)
    (k : nat) :
  foldl (fun d u => <[u := f u]> d) acc l !! k
  = if bool_decide (k ∈ l) then Some (f k) else acc !! k.
Proof.
  revert acc. induction l as [|u l IH]; intros acc; [done|].
  simpl. rewrite IH. case_bool_decide as Hl.
  - rewrite bool_decide_eq_true_2; [done|by right].
  - destruct (decide (u = k)) as [->|Hne].
    + rewrite bool_decide_eq_true_2 by (by left). apply lookup_insert_eq.
    + rewrite bool_decide_eq_false_2; [by apply lookup_insert_ne|].
      intros [->|?]%elem_of_cons; done.
Qed.

(** X15: [get_all_buckets] has an entry for exactly the UIDs of the
    metagraph, each with what [get_bucket] returns for it ([None] when
    nothing is indexed); buckets indexed under other UIDs are left out. *)
Theorem get_all_buckets_lookup (self : ChainManager) (uid : nat) :
  (uid ∈ uids (metagraph self) →
   get_all_buckets self !! uid = Some (get_bucket self uid))
  ∧ (uid ∉ uids (metagraph self) → get_all_buckets self !! uid = None).
Proof.
  unfold get_all_buckets. rewrite foldl_insert_fun.
  split; intros Hu; [by rewrite bool_decide_eq_true_2|].
  by rewrite bool_decide_eq_false_2.
Qed.

Lemma get_all_buckets_lookup_witness :
  get_all_buckets indexed_manager !! 2%nat
  = Some (get_bucket indexed_manager 2).
Proof.
  refine (proj1 (get_all_buckets_lookup indexed_manager 2) _).
  apply (bool_decide_unpack _). by vm_compute.
Defined.

Lemma uid_index_Some (l : list nat) (uid i : nat) :
  uid_index l uid = Some i →
  l !! i = Some uid ∧ ∀ j, (j < i)%nat → l !! j ≠ Some uid.
Proof.
  revert i. induction l as [|y l IH]; intros i; [done|]. simpl.
  case_bool_decide as Hy.
  - intros [= <-]. split; [by subst|]. intros j Hj. lia.
  - destruct (uid_index l uid) as [k|]; [|done]. intros [= <-].
    destruct (IH k eq_refl) as [Hk Hmin]. split; [done|].
    intros [|j] Hj; simpl; [congruence|]. apply Hmin. lia.
Qed.

Lemma uid_index_None (l : list nat) (uid : nat) :
  uid_index l uid = None ↔ uid ∉ l.
Proof.
  induction l as [|y l IH]; simpl.
  - split; [intros _; apply not_elem_of_nil|done].
  - case_bool_decide as Hy.
    + split; [done|]. intros Hn. destruct Hn. subst. by left.
    + rewrite not_elem_of_cons, <- IH.
      destruct (uid_index l uid); simpl; split; try done; by intros [_ ?].
Qed.

Lemma uid_index_NoDup (l : list nat) (uid i : nat) :
  NoDup l → l !! i = Some uid → uid_index l uid = Some i.
Proof.
  intros Hnd Hi. destruct (uid_index l uid) as [j|] eqn:Hj.
  - apply uid_index_Some in Hj as [Hj _].
    by rewrite (NoDup_lookup _ _ _ _ Hnd Hi Hj).
  - apply uid_index_None in Hj. destruct Hj.
    apply list_elem_of_lookup. by exists i.
Qed.

(** X16: [get_hotkey] returns [None] exactly for a UID that is not in the
    metagraph, never raises when there are at least as many hotkeys as
    UIDs, and otherwise returns the hotkey at the first position of the
    UID. *)
Theorem get_hotkey_outcomes (self : ChainManager) (uid : nat) :
  (get_hotkey self uid = NoHotkey ↔ uid ∉ uids (metagraph self))
  ∧ (length (uids (metagraph self)) ≤ length (hotkeys (metagraph self))
     → get_hotkey self uid ≠ IndexError)%nat
  ∧ (∀ hotkey, get_hotkey self uid = Hotkey hotkey →
       ∃ i, uids (metagraph self) !! i = Some uid
            ∧ hotkeys (metagraph self) !! i = Some hotkey
            ∧ ∀ j, (j < i)%nat → uids (metagraph self) !! j ≠ Some uid).
Proof.
  unfold get_hotkey.
  destruct (uid_index (uids (metagraph self)) uid) as [i|] eqn:Hi.
  - apply uid_index_Some in Hi as Hi'. destruct Hi' as [Hu Hmin].
    split; [|split].
    + split.
      * by destruct (hotkeys (metagraph self) !! i).
      * intros Hn. destruct Hn. apply list_elem_of_lookup. by exists i.
    + intros Hlen. apply lookup_lt_Some in Hu.
      destruct (lookup_lt_is_Some_2 (hotkeys (metagraph self)) i) as [h ->];
        [lia|done].
    + intros hotkey.
      destruct (hotkeys (metagraph self) !! i) as [h|] eqn:Hh; [|done].
      intros [= <-]. by exists i.
  - split; [|split; [done|done]]. split; [|done].
    intros _. by apply uid_index_None.
Qed.

Lemma get_hotkey_outcomes_witness :
  get_hotkey (manager_of three_members ∅) 2 ≠ IndexError.
Proof.
  refine (proj1 (proj2 (get_hotkey_outcomes (manager_of three_members ∅) 2))
            _).
  simpl. lia.
Defined.

(** X17: [get_hotkey] and the table [hotkey_to_uid] of the refresh are
    inverse to each other: with distinct hotkeys the hotkey returned for a
    UID maps back to that UID, and with distinct UIDs the UID of a hotkey
    gets that hotkey. *)
Theorem hotkey_uid_round_trip (self : ChainManager) (uid : nat)
    (hotkey : list N) :
  (NoDup (hotkeys (metagraph self)) →
   get_hotkey self uid = Hotkey hotkey →
   hotkey_to_uid self !! hotkey = Some uid)
  ∧ (NoDup (uids (metagraph self)) →
     hotkey_to_uid self !! hotkey = Some uid →
     get_hotkey self uid = Hotkey hotkey).
Proof.
  split.
  - intros Hnd Hg. unfold get_hotkey in Hg.
    destruct (uid_index (uids (metagraph self)) uid) as [i|] eqn:Hi;
      [|done].
    apply uid_index_Some in Hi as [Hu _].
    destruct (hotkeys (metagraph self) !! i) as [h|] eqn:Hh; [|done].
    injection Hg as ->. unfold hotkey_to_uid. by eapply dict_zip_NoDup.
  - intros Hnd Hl. unfold hotkey_to_uid in Hl.
    apply dict_zip_Some, list_elem_of_lookup in Hl as [i Hi].
    rewrite lookup_zip_with in Hi.
    destruct (hotkeys (metagraph self) !! i) as [h|] eqn:Hh; [|done].
    simpl in Hi.
    destruct (uids (metagraph self) !! i) as [u|] eqn:Hu; [|done].
    injection Hi as -> ->. unfold get_hotkey.
    by rewrite (uid_index_NoDup _ _ _ Hnd Hu), Hh.
Qed.

Lemma hotkey_uid_round_trip_witness :
  hotkey_to_uid (manager_of three_members ∅) !! lit "hk2" = Some 2%nat.
Proof.
  refine (proj1 (hotkey_uid_round_trip (manager_of three_members ∅) 2
                   (lit "hk2")) _ _).
  - apply (bool_decide_unpack _). by vm_compute.
  - reflexivity.
Defined.

(** ** Reconciliation against the ledger *)

Lemma index_None (l : list (list N)) (x : list N) :
  x ∉ l → index l x = None.
Proof.
  induction l as [|y l IH]; [done|]. intros [Hne Hl]%not_elem_of_cons.
  simpl. rewrite bool_decide_eq_false_2 by done. by rewrite IH.
Qed.

Lemma commitment_matches_length self chain address bucket :
  commitment_matches self chain address bucket = Ok tt →
  length ((name bucket ++ access_key_id bucket) ++ secret_access_key bucket)
  = 128%nat.
Proof.
  unfold commitment_matches.
  destruct (index (hotkeys (metagraph self)) address) as [uid|]; [|done].
  destruct (get_commitment self chain uid) as [obs|] eqn:Hg; [|done].
  case_bool_decide as Hne; [done|]. intros _.
  assert (Heq : (name bucket ++ access_key_id bucket)
                  ++ secret_access_key bucket
                = (name obs ++ access_key_id obs) ++ secret_access_key obs)
    by (by destruct (decide ((name bucket ++ access_key_id bucket)
                               ++ secret_access_key bucket
                             = (name obs ++ access_key_id obs)
                                 ++ secret_access_key obs))).
  rewrite Heq. unfold get_commitment in Hg.
  destruct (subtensor_get_commitment _ chain uid) as [c|]; [|done].
  destruct (parse_commitment_lengths _ _ Hg) as (Hn & Hk & Hs).
  rewrite !length_app. lia.
Qed.

Lemma commitment_matches_unit self chain address bucket u :
  commitment_matches self chain address bucket = Ok u →
  commitment_matches self chain address bucket = Ok tt.
Proof. by destruct u. Qed.

(** X18: when the wallet's hotkey is not in the metagraph, or the
    compared string name, access key id, secret of the intended bucket
    does not have 128 characters, every run of [try_commit] submits
    again: [n] runs issue [n] calls of [subtensor.commit]. *)
Theorem unmatchable_record_is_always_committed (self : ChainManager)
    (chain : Chain) (address : list N) (bucket : Bucket) (n : nat) :
  address ∉ hotkeys (metagraph self)
  ∨ length ((name bucket ++ access_key_id bucket)
              ++ secret_access_key bucket) ≠ 128%nat →
  submitted (try_commit_times n self chain address bucket)
  = submitted chain ++ replicate n (address, concatenated bucket).
Proof.
  intros H. revert chain. induction n as [|n IH]; intros chain.
  - simpl. by rewrite app_nil_r.
  - cbn [try_commit_times]. rewrite IH.
    assert (Hc : try_commit self chain address bucket
                 = commit chain address bucket).
    { destruct (commitment_matches self chain address bucket) as [u|e]
        eqn:Hm; [|by eapply try_commit_raise].
      exfalso. apply commitment_matches_unit in Hm.
      destruct H as [Ha|Hl].
      - unfold commitment_matches in Hm. by rewrite index_None in Hm.
      - by apply commitment_matches_length in Hm. }
    rewrite Hc. simpl. by rewrite <- (assoc_L (++)).
Qed.

Lemma unmatchable_record_is_always_committed_witness :
  submitted (try_commit_times 3 (manager_of three_members ∅) empty_chain
               (lit "hk1") short_secret_bucket)
  = submitted empty_chain
      ++ replicate 3 (lit "hk1", concatenated short_secret_bucket).
Proof.
  refine (unmatchable_record_is_always_committed
            (manager_of three_members ∅) empty_chain (lit "hk1")
            short_secret_bucket 3 _).
  right. by vm_compute.
Defined.

(** X19: [try_commit] leaves the record of every other hotkey as it was
    and only ever adds to the ledger and to the calls issued. *)
Theorem try_commit_touches_one_record (self : ChainManager) (chain : Chain)
    (address other : list N) (bucket : Bucket) :
  other ≠ address →
  latest (ledger (try_commit self chain address bucket)) other
  = latest (ledger chain) other
  ∧ submitted chain `prefix_of`
      submitted (try_commit self chain address bucket)
  ∧ ledger chain `suffix_of` ledger (try_commit self chain address bucket).
Proof.
  intros Hne. unfold try_commit.
  destruct (commitment_matches self chain address bucket); [done|].
  simpl. rewrite bool_decide_eq_false_2 by done. split; [done|].
  split; [by apply prefix_app_r|]. by apply suffix_cons_r.
Qed.

Lemma try_commit_touches_one_record_witness :
  latest (ledger (try_commit (manager_of three_members ∅) published_chain
                    (lit "hk2") canonical_bucket)) (lit "hk1")
  = latest (ledger published_chain) (lit "hk1").
Proof.
  refine (proj1 (try_commit_touches_one_record (manager_of three_members ∅)
                   published_chain (lit "hk2") (lit "hk1") canonical_bucket
                   _)).
  by vm_compute.
Defined.

(** X20: on a ledger that serves a committed record at once,
    [get_commitment] returns the committed bucket itself exactly when its
    fields have 32, 32 and 64 characters and its name is its account id;
    a bucket whose encoding is not 128 characters long reads back as a
    [ValueError]. *)
Theorem committed_record_reads_back (self : ChainManager) (chain : Chain)
    (address : list N) (uid : nat) (bucket : Bucket) :
  hotkeys (metagraph self) !! uid = Some address →
  (get_commitment self (commit chain address bucket) uid = Ok bucket
   ↔ canonical_widths bucket ∧ name bucket = account_id bucket)
  ∧ (length (concatenated bucket) ≠ 128%nat →
     get_commitment self (commit chain address bucket) uid
     = Raise ValueError).
Proof.
  intros Hu.
  assert (Hg : get_commitment self (commit chain address bucket) uid
               = parse_commitment (concatenated bucket)).
  { unfold get_commitment, subtensor_get_commitment. rewrite Hu. simpl.
    by rewrite bool_decide_eq_true_2. }
  rewrite Hg. split.
  - split.
    + intros Hp. destruct (parse_commitment_lengths _ _ Hp) as (Hn & Hk & Hs).
      assert (Hna : name bucket = account_id bucket).
      { unfold parse_commitment in Hp. case_bool_decide; [done|].
        injection Hp as Hp. by rewrite <- Hp. }
      split; [|done]. unfold canonical_widths. by rewrite <- Hna.
    + intros [(Ha & Hk & Hs) Hna]. unfold parse_commitment.
      rewrite bool_decide_eq_false_2
        by (rewrite length_concatenated; lia).
      unfold concatenated.
      rewrite slice_account, slice_access_key, drop_secret by done.
      destruct bucket; simpl in *. by subst.
  - intros Hl. unfold parse_commitment. by rewrite bool_decide_eq_true_2.
Qed.

Lemma committed_record_reads_back_witness :
  get_commitment (manager_of three_members ∅)
    (commit empty_chain (lit "hk2") canonical_bucket) 1
  = Ok canonical_bucket
  ↔ canonical_widths canonical_bucket
    ∧ name canonical_bucket = account_id canonical_bucket.
Proof.
  refine (proj1 (committed_record_reads_back (manager_of three_members ∅)
                   empty_chain (lit "hk2") 1 canonical_bucket _)).
  reflexivity.
Defined.

(** ** Construction *)


(** ** Where the two decoders part *)

Lemma length_lstrip (s : list N) : (length (lstrip s) ≤ length s)%nat.
Proof.
  induction s as [|c s IH]; [done|]. simpl.
  destruct (isspace c); simpl; lia.
Qed.

Lemma length_lstrip_space (s : list N) (c : N) :
  head s = Some c → isspace c = true → (length (lstrip s) < length s)%nat.
Proof.
  destruct s as [|c' s]; [done|]. intros [= ->] Hc. simpl. rewrite Hc.
  pose proof (length_lstrip s). lia.
Qed.

Lemma length_rstrip (s : list N) : (length (rstrip s) ≤ length s)%nat.
Proof.
  unfold rstrip. rewrite length_reverse.
  pose proof (length_lstrip (reverse s)). by rewrite length_reverse in *.
Qed.

Lemma length_rstrip_space (s : list N) (c : N) :
  last s = Some c → isspace c = true → (length (rstrip s) < length s)%nat.
Proof.
  intros Hl Hc. unfold rstrip. rewrite length_reverse.
  rewrite <- head_reverse in Hl.
  pose proof (length_lstrip_space _ _ Hl Hc). by rewrite length_reverse in *.
Qed.

Lemma length_strip_outer_space (text : list N) :
  (∃ c, head text = Some c ∧ isspace c = true)
  ∨ (∃ c, last text = Some c ∧ isspace c = true) →
  (length (strip text) < length text)%nat.
Proof.
  unfold strip. intros [(c & Hh & Hc)|(c & Hl & Hc)].
  - pose proof (length_lstrip_space _ _ Hh Hc).
    pose proof (length_rstrip (lstrip text)). lia.
  - destruct text as [|c0 text]; [done|]. cbn [lstrip].
    destruct (isspace c0) eqn:Hc0.
    + pose proof (length_lstrip text).
      pose proof (length_rstrip (lstrip text)). simpl. lia.
    + by apply (length_rstrip_space _ c).
Qed.

(** X22: an ASCII text of 128 characters that starts or ends with white
    space is accepted by the point lookup and rejected by the bulk path,
    which tests the length after [strip()]. *)
Theorem decoders_part_on_outer_space (text : list N) :
  Forall (fun c => c < 128) text → length text = 128%nat →
  (∃ c, head text = Some c ∧ isspace c = true)
  ∨ (∃ c, last text = Some c ∧ isspace c = true) →
  is_ok (parse_commitment text) = true
  ∧ ∃ n, decode_field_value (wire text) = InvalidLength n ∧ (n < 128)%nat.
Proof.
  intros Hascii Hlen Hspace. split.
  - unfold parse_commitment. by rewrite bool_decide_eq_false_2 by (by intros ?).
  - pose proof (length_strip_outer_space _ Hspace) as Hs.
    assert (Hm : strip_marker (wire text) = hexlify text)
      by (unfold strip_marker, wire; simpl; by destruct (hexlify text)).
    unfold decode_field_value.
    rewrite Hm, fromhex_hexlify, decode_utf8_ascii
      by (done || by apply Forall_ascii_byte).
    rewrite bool_decide_eq_true_2 by lia.
    eexists. split; [done|]. lia.
Qed.

Lemma decoders_part_on_outer_space_witness :
  is_ok (parse_commitment trailing_space_text) = true
  ∧ ∃ n, decode_field_value (wire trailing_space_text) = InvalidLength n
         ∧ (n < 128)%nat.
Proof.
  refine (decoders_part_on_outer_space trailing_space_text _ _ _).
  - apply (bool_decide_unpack _). by vm_compute.
  - reflexivity.
  - right. exists 0x20. by split.
Defined.

(** ** Peers and the stake vector *)

(** X23: the peers [update_peers_with_buckets] computes hold no UID
    twice and are at most as many as the indexed buckets. *)
Theorem peers_have_no_duplicates (self : ChainManager) :
  NoDup (peers (update_peers_with_buckets self))
  ∧ (length (peers (update_peers_with_buckets self))
     ≤ size (commitments self))%nat.
Proof.
  unfold update_peers_with_buckets. simpl. split.
  - apply NoDup_ListNoDup, List.NoDup_filter, NoDup_ListNoDup.
    apply NoDup_fst_map_to_list.
  - etrans; [apply List.filter_length_le|].
    by rewrite length_fmap, length_map_to_list.
Qed.

Lemma dict_zip_position `{Countable K} {V} (ks : list K) (vs : list V) k v :
  dict_zip ks vs !! k = Some v →
  ∃ j, ks !! j = Some k ∧ vs !! j = Some v.
Proof.
  intros [j Hj]%dict_zip_Some%list_elem_of_lookup. exists j.
  rewrite lookup_zip_with in Hj.
  destruct (ks !! j); [|done]. simpl in Hj. destruct (vs !! j); [|done].
  by injection Hj as -> ->.
Qed.

(** X24: with distinct UIDs the stake used for a UID at position [i] of
    the metagraph is [S[i]], and 0 when the stake vector is too short
    to have that position. *)
Theorem stake_by_position (mg : Metagraph) (i uid : nat) :
  NoDup (uids mg) → uids mg !! i = Some uid →
  stake_of mg uid = default 0%Q (stakes mg !! i).
Proof.
  intros Hnd Hu. unfold stake_of, uid_to_stake.
  destruct (stakes mg !! i) as [s|] eqn:Hs.
  - by rewrite (dict_zip_NoDup _ _ i uid s).
  - destruct (dict_zip (uids mg) (stakes mg) !! uid) as [s|] eqn:Hd; [|done].
    apply dict_zip_position in Hd as (j & Hj & Hsj).
    rewrite (NoDup_lookup _ _ _ _ Hnd Hu Hj) in Hs. congruence.
Qed.

Lemma stake_by_position_witness :
  stake_of three_members 2 = default 0%Q (stakes three_members !! 1%nat).
Proof.
  refine (stake_by_position three_members 1 2 _ _).
  - apply (bool_decide_unpack _). by vm_compute.
  - reflexivity.
Defined.

(** ** Size of an accepted payload *)

Lemma length_fromhex (s bs : list N) :
  fromhex s = Some bs → (2 * length bs ≤ length s)%nat.
Proof.
  remember (length s) as n eqn:Hn. revert s bs Hn.
  induction n as [n IH] using lt_wf_ind. intros s bs Hn Hs.
  destruct s as [|c0 s]; [injection Hs as <-; simpl; lia|].
  cbn [fromhex] in Hs. destruct (ascii_space c0).
  - specialize (IH (length s) ltac:(simpl in Hn; lia) s bs eq_refl Hs).
    simpl in Hn. lia.
  - destruct (hex_digit c0) as [top|]; [|done].
    destruct s as [|c1 s]; [done|].
    destruct (hex_digit c1) as [bot|]; [|done].
    apply fmap_Some in Hs as (bs' & Hs & ->).
    specialize (IH (length s) ltac:(simpl in Hn; lia) s bs' eq_refl Hs).
    simpl in *. lia.
Qed.

Lemma length_decode_utf8 (bs text : list N) :
  decode_utf8 bs = Some text → (length text ≤ length bs)%nat.
Proof.
  remember (length bs) as n eqn:Hn. revert bs text Hn.
  induction n as [n IH] using lt_wf_ind. intros bs text Hn Hd.
  destruct bs as [|b0 r0]; [injection Hd as <-; simpl; lia|].
  cbn [decode_utf8] in Hd.
  repeat match type of Hd with
         | context [if ?c then _ else _] => destruct c
         | context [match ?l with [] => _ | _ :: _ => _ end] => destruct l
         end; try discriminate;
    apply fmap_Some in Hd as (text' & Hd & ->);
    (eapply IH in Hd; [|simpl in Hn|reflexivity]); simpl in *; lia.
Qed.

(** X26: a payload the bulk path accepts holds at least 256 characters
    after the marker: two hex digits for each of at least 128 bytes. *)
Theorem accepted_payload_is_long (field_value : list N) (bucket : Bucket) :
  decode_field_value field_value = Decoded bucket →
  (256 ≤ length (strip_marker field_value))%nat
  ∧ (256 ≤ length field_value)%nat.
Proof.
  intros Hd.
  assert (length (strip_marker field_value) ≤ length field_value)%nat.
  { unfold strip_marker. destruct (startswith field_value (lit "0x")); [|lia].
    rewrite length_drop. lia. }
  assert (256 ≤ length (strip_marker field_value))%nat; [|lia].
  - unfold decode_field_value in Hd.
    destruct (fromhex (strip_marker field_value)) as [raw|] eqn:Hf; [|done].
    destruct (decode_utf8 raw) as [text|] eqn:Hu; [|done].
    case_bool_decide as Hl; [done|].
    assert (length (strip text) = 128%nat)
      by (by destruct (decide (length (strip text) = 128%nat))).
    apply length_fromhex in Hf. apply length_decode_utf8 in Hu.
    pose proof (length_rstrip (lstrip text)).
    pose proof (length_lstrip text). unfold strip in *. lia.
Qed.

Lemma accepted_payload_is_long_witness :
  (256 ≤ length (strip_marker (wire (concatenated canonical_bucket))))%nat
  ∧ (256 ≤ length (wire (concatenated canonical_bucket)))%nat.
Proof.
  refine (accepted_payload_is_long (wire (concatenated canonical_bucket))
            canonical_bucket _).
  by vm_compute.
Defined.

(** ** The bucket of a neuron *)

Lemma index_is_Some (l : list (list N)) (x : list N) :
  x ∈ l → is_Some (index l x).
Proof.
  induction l as [|y l IH]; [by intros ?%elem_of_nil|].
  intros [->|Hl]%elem_of_cons; simpl.
  - by rewrite bool_decide_eq_true_2.
  - case_bool_decide; [done|]. destruct (IH Hl) as [i ->]. by eexists.
Qed.

(** X25: [get_bucket_for_neuron] returns [None] exactly when the hotkey
    is not in the metagraph; for a hotkey of the metagraph the [await] on
    the result of [get_bucket] raises [TypeError], whatever the index
    holds, so no bucket is ever returned. *)
Theorem get_bucket_for_neuron_outcomes (self : ChainManager)
    (address : list N) :
  (get_bucket_for_neuron self address = NoBucket
   ↔ address ∉ hotkeys (metagraph self))
  ∧ (get_bucket_for_neuron self address = TypeError
     ↔ address ∈ hotkeys (metagraph self)).
Proof.
  unfold get_bucket_for_neuron.
  destruct (index (hotkeys (metagraph self)) address) as [uid|] eqn:Hi.
  - apply index_lookup in Hi as Hl.
    assert (address ∈ hotkeys (metagraph self))
      by (apply list_elem_of_lookup; by exists uid).
    split; split; done.
  - assert (address ∉ hotkeys (metagraph self)).
    { intros Hin%index_is_Some. rewrite Hi in Hin. by destruct Hin. }
    split; split; done.
Qed.
